(** * react-data-table: the [Table] component of [src/index.tsx]

    A shallow embedding of the component's state (the four [useState]
    cells), of its derivation pipeline ([sortedData], [filteredData],
    [paginatedData], [totalPages]) and of its event handlers, together with
    the part of the JavaScript runtime those lines rely on: the [number]
    arithmetic of the page computations, the relational operators [<] and
    [>] on field values, [toString], [toLowerCase], [includes],
    [Array.prototype.some], [filter], [slice] and [sort].

    Scope of the model.
    - A [number] is a double holding an integer, [NaN] or an infinity; the
      arithmetic is exact on the safe integers, which is where page
      numbers, page sizes and array lengths live.  Negative zero is
      identified with zero; a double that is no integer has no counterpart.
    - A string is a sequence of code units; Rocq's [ascii] covers the code
      units 0..255, on which [toLowerCase] is the lowercase of Latin-1.
    - A field value is a primitive ([undefined], [null], a boolean, a number
      or a string); a row is a plain object read through its own fields.
    - An exception is a [Throw] result: evaluation stops at the first one.
    - The algorithm of [Array.prototype.sort] is the engine's; the order of
      a sorted array is stated where every stable sort agrees, and one
      lemma shows an array that a missing value leaves unordered. *)

From Stdlib Require Import ZArith List Bool Lia Permutation Sorted.
From Stdlib Require Import Ascii String.
From Stdlib Require DecimalString OrderedTypeEx.
Import ListNotations.

Local Open Scope Z_scope.

(** ** Completions: normal results and thrown exceptions *)

Inductive jsError := TypeError.

Inductive completion (A : Type) : Type :=
| Normal (a : A)
| Throw (e : jsError).

Arguments Normal {A} a.
Arguments Throw {A} e.

Definition bind {A B} (c : completion A) (k : A -> completion B) : completion B :=
  match c with
  | Normal a => k a
  | Throw e => Throw e
  end.

Notation "x <- c ;; k" := (bind c (fun x => k))
  (at level 61, c at next level, right associativity).

(** ** Numbers *)

Inductive number := Fin (z : Z) | NaN | PosInf | NegInf.

Definition num_neg (a : number) : number :=
  match a with
  | Fin z => Fin (- z)
  | NaN => NaN
  | PosInf => NegInf
  | NegInf => PosInf
  end.

(** [a + b] *)
Definition num_add (a b : number) : number :=
  match a, b with
  | NaN, _ | _, NaN => NaN
  | Fin x, Fin y => Fin (x + y)
  | PosInf, NegInf | NegInf, PosInf => NaN
  | PosInf, _ | _, PosInf => PosInf
  | NegInf, _ | _, NegInf => NegInf
  end.

(** [a - b] *)
Definition num_sub (a b : number) : number := num_add a (num_neg b).

Definition num_sgn (a : number) : Z :=
  match a with
  | Fin z => Z.sgn z
  | PosInf => 1
  | NegInf => -1
  | NaN => 0
  end.

Definition inf_of_sgn (s : Z) : number :=
  if s =? 0 then NaN else if 0 <? s then PosInf else NegInf.

(** [a * b] *)
Definition num_mul (a b : number) : number :=
  match a, b with
  | NaN, _ | _, NaN => NaN
  | Fin x, Fin y => Fin (x * y)
  | _, _ => inf_of_sgn (num_sgn a * num_sgn b)
  end.

(** [Math.ceil(a / b)].  The quotient itself is not an integer, so the
    division and the rounding are embedded as one operation.  Between
    integers, [- ((- x) / y)] is the ceiling of the rational quotient
    ([Z.div] rounds down); the double quotient rounds to the same ceiling
    while the dividend is a safe integer. *)
Definition Math_ceil_div (a b : number) : number :=
  match a, b with
  | NaN, _ | _, NaN => NaN
  | Fin x, Fin y => if y =? 0 then inf_of_sgn (Z.sgn x) else Fin (- ((- x) / y))
  | Fin _, _ => Fin 0
  | _, Fin y => if y <? 0 then num_neg a else a
  | _, _ => NaN
  end.

(** [a < b] on numbers; a comparison with [NaN] is false. *)
Definition num_ltb (a b : number) : bool :=
  match a, b with
  | NaN, _ | _, NaN => false
  | Fin x, Fin y => x <? y
  | NegInf, NegInf => false
  | NegInf, _ => true
  | _, PosInf => match a with PosInf => false | _ => true end
  | _, _ => false
  end.

(** [a === b] on numbers; [NaN] is not equal to itself. *)
Definition num_eqb (a b : number) : bool :=
  match a, b with
  | Fin x, Fin y => x =? y
  | PosInf, PosInf | NegInf, NegInf => true
  | _, _ => false
  end.

Definition Math_max (a b : number) : number :=
  match a, b with
  | NaN, _ | _, NaN => NaN
  | _, _ => if num_ltb a b then b else a
  end.

Definition Math_min (a b : number) : number :=
  match a, b with
  | NaN, _ | _, NaN => NaN
  | _, _ => if num_ltb b a then b else a
  end.

(** Truthiness of a number: [0] and [NaN] are falsy. *)
Definition num_truthy (a : number) : bool :=
  match a with
  | Fin z => negb (z =? 0)
  | NaN => false
  | _ => true
  end.

(** ** Doubles that hold integers

    The double nearest to a positive rational [a / b], when that double is
    an integer or overflows; a double that is no integer has no counterpart
    in [number] and is returned as [NaN]. *)

Definition round_half_even (num den : Z) : Z :=
  let q := num / den in
  let r := num mod den in
  if (den <? 2 * r) || ((den =? 2 * r) && Z.odd q) then q + 1 else q.

Definition double_of_ratio (a b : Z) : number :=
  if a <=? 0 then Fin 0 else
  let d := Z.log2 a - Z.log2 b in
  let floor_log2 :=
    if b * 2 ^ Z.max d 0 <=? a * 2 ^ Z.max (- d) 0 then d else d - 1 in
  let e := Z.max (floor_log2 - 52) (-1074) in
  let m := round_half_even (a * 2 ^ Z.max (- e) 0) (b * 2 ^ Z.max e 0) in
  if 0 <=? e then
    if 2 ^ 1024 <=? m * 2 ^ e then PosInf else Fin (m * 2 ^ e)
  else if m mod 2 ^ (- e) =? 0 then Fin (m / 2 ^ (- e)) else NaN.

(** The double nearest to a non-negative integer: the integer itself up to
    [2 ^ 53]. *)
Definition double_of_Z (z : Z) : number := double_of_ratio z 1.

(** ** Strings *)

Definition is_digit (c : ascii) : bool :=
  let n := nat_of_ascii c in (48 <=? n)%nat && (n <=? 57)%nat.

(** The white space and line terminators among the code units 0..255. *)
Definition is_space (c : ascii) : bool :=
  let n := nat_of_ascii c in
  (n =? 9)%nat || (n =? 10)%nat || (n =? 11)%nat || (n =? 12)%nat
  || (n =? 13)%nat || (n =? 32)%nat || (n =? 160)%nat.

(** The lowercase of a code unit below 256: the letters A-Z and the
    capital letters of Latin-1, 192..222 without the multiplication sign
    215, move up by 32. *)
Definition lower_ascii (c : ascii) : ascii :=
  let n := nat_of_ascii c in
  if ((65 <=? n)%nat && (n <=? 90)%nat)
     || ((192 <=? n)%nat && (n <=? 222)%nat && negb (n =? 215)%nat)
  then ascii_of_nat (n + 32) else c.

(** [s.toLowerCase()] *)
Fixpoint toLowerCase (s : string) : string :=
  match s with
  | EmptyString => EmptyString
  | String c r => String (lower_ascii c) (toLowerCase r)
  end.

(** [s.includes(t)]: [t] occurs in [s] at some position. *)
Fixpoint includes (s t : string) : bool :=
  String.prefix t s ||
  match s with
  | EmptyString => false
  | String _ r => includes r t
  end.

Fixpoint trim_start (s : string) : string :=
  match s with
  | String c r => if is_space c then trim_start r else s
  | EmptyString => EmptyString
  end.

Fixpoint rev_string (s acc : string) : string :=
  match s with
  | EmptyString => acc
  | String c r => rev_string r (String c acc)
  end.

Definition trim (s : string) : string :=
  rev_string (trim_start (rev_string (trim_start s) EmptyString)) EmptyString.

(** The value of a digit in the radix [r]: 0-9, a-f and A-F. *)
Definition radix_digit (r : Z) (c : ascii) : option Z :=
  let n := Z.of_nat (nat_of_ascii c) in
  let v :=
    if (48 <=? n) && (n <=? 57) then n - 48
    else if (97 <=? n) && (n <=? 102) then n - 87
    else if (65 <=? n) && (n <=? 70) then n - 55
    else r in
  if v <? r then Some v else None.

(** A string of digits of the radix [r], read to its end. *)
Fixpoint digits_value (r : Z) (s : string) (acc : Z) : option Z :=
  match s with
  | EmptyString => Some acc
  | String c rest =>
      match radix_digit r c with
      | Some v => digits_value r rest (r * acc + v)
      | None => None
      end
  end.

(** The leading decimal digits of [s]: their value on top of [acc], their
    count on top of [count], and the rest of the string. *)
Fixpoint read_digits (s : string) (acc count : Z) : Z * Z * string :=
  match s with
  | String c rest =>
      if is_digit c
      then read_digits rest (10 * acc + (Z.of_nat (nat_of_ascii c) - 48)) (count + 1)
      else (acc, count, s)
  | EmptyString => (acc, count, s)
  end.

(** [mantissa * 10 ^ exponent] as a double; [digits] bounds the number of
    digits of the mantissa.  Beyond the range of the doubles the result is
    known without the power. *)
Definition decimal_value (mantissa digits exponent : Z) : number :=
  if mantissa =? 0 then Fin 0
  else if 400 <? exponent then PosInf
  else if exponent + digits <? -400 then Fin 0
  else double_of_ratio (mantissa * 10 ^ Z.max exponent 0) (10 ^ Z.max (- exponent) 0).

(** An exponent part, [e] or [E] with a signed run of digits, or nothing. *)
Definition exponent_part (s : string) : option Z :=
  match s with
  | EmptyString => Some 0
  | String c rest =>
      if Ascii.eqb c "e" || Ascii.eqb c "E" then
        let '(sign, ds) :=
          match rest with
          | String "+" r => (1, r)
          | String "-" r => (-1, r)
          | _ => (1, rest)
          end in
        match ds with
        | EmptyString => None
        | _ => match digits_value 10 ds 0 with
               | Some v => Some (sign * v)
               | None => None
               end
        end
      else None
  end.

(** An unsigned decimal literal: [Infinity], or digits with an optional
    fraction and an optional exponent part, one digit at least. *)
Definition unsigned_literal (s : string) : number :=
  if String.eqb s "Infinity" then PosInf else
  let '(int_value, int_count, rest) := read_digits s 0 0 in
  let '(mantissa, frac_count, rest') :=
    match rest with
    | String "." r => read_digits r int_value 0
    | _ => (int_value, 0, rest)
    end in
  if int_count + frac_count =? 0 then NaN else
  match exponent_part rest' with
  | Some e => decimal_value mantissa (int_count + frac_count) (e - frac_count)
  | None => NaN
  end.

(** A literal with a radix prefix, [0x], [0o] or [0b] in either case. *)
Definition radix_literal (s : string) : option number :=
  match s with
  | String "0" (String c rest) =>
      let radix :=
        if Ascii.eqb c "x" || Ascii.eqb c "X" then 16
        else if Ascii.eqb c "o" || Ascii.eqb c "O" then 8
        else if Ascii.eqb c "b" || Ascii.eqb c "B" then 2
        else 0 in
      if radix =? 0 then None else
      match rest with
      | EmptyString => Some NaN
      | _ => match digits_value radix rest 0 with
             | Some v => Some (double_of_Z v)
             | None => Some NaN
             end
      end
  | _ => None
  end.

(** [Number(s)] on a string: surrounding white space is dropped; the empty
    string is [0]; a literal with a radix prefix or a signed decimal
    literal is the double nearest to its value; any other string is [NaN].
    A literal whose double is no integer is outside [number], and reads as
    [NaN] too. *)
Definition StringToNumber (s : string) : number :=
  match trim s with
  | EmptyString => Fin 0
  | String "+" r => unsigned_literal r
  | String "-" r => num_neg (unsigned_literal r)
  | t => match radix_literal t with
         | Some n => n
         | None => unsigned_literal t
         end
  end.

(** The decimal digits of an integer. *)
Definition Z_toString (z : Z) : string :=
  DecimalString.NilZero.string_of_int (Z.to_int z).

Definition drop_trailing_zeros (s : string) : string :=
  let fix drop (r : string) : string :=
    match r with
    | String "0" rest => drop rest
    | _ => r
    end in
  rev_string (drop (rev_string s EmptyString)) EmptyString.

(** The integer with the fewest significant digits that the double [v]
    is the nearest double of, looked for with 1, 2, ... digits; of two
    with as few digits the nearer to [v], and the even one on a tie. *)
Fixpoint shortest_decimal (fuel : nat) (len k v : Z) : Z :=
  match fuel with
  | O => v
  | S fuel' =>
      let p := 10 ^ Z.max (len - k) 0 in
      let lo := (v / p) * p in
      let hi := lo + p in
      let ok_lo := match double_of_Z lo with Fin w => w =? v | _ => false end in
      let ok_hi := match double_of_Z hi with Fin w => w =? v | _ => false end in
      if ok_lo && ok_hi then
        if v - lo <? hi - v then lo
        else if hi - v <? v - lo then hi
        else if Z.even (lo / p) then lo else hi
      else if ok_lo then lo
      else if ok_hi then hi
      else shortest_decimal fuel' len (k + 1) v
  end.

(** The text of a non-negative integer double: its shortest decimal, all
    its digits up to 21 of them, in exponent form beyond. *)
Definition integer_text (v : Z) : string :=
  let c :=
    if v <? 2 ^ 53 then v
    else shortest_decimal 17 (Z.of_nat (String.length (Z_toString v))) 1 v in
  let all := Z_toString c in
  let n := Z.of_nat (String.length all) in
  if n <=? 21 then all else
  let exponent := ("e+" ++ Z_toString (n - 1))%string in
  match drop_trailing_zeros all with
  | String d EmptyString => String d exponent
  | String d rest => String d (String "." (rest ++ exponent))
  | EmptyString => all
  end.

(** [n.toString()] on an integer: the text of the double nearest to it. *)
Definition Number_toString (z : Z) : string :=
  let text v := match double_of_Z v with
                | Fin w => integer_text w
                | _ => "Infinity"%string
                end in
  if z <? 0 then ("-" ++ text (- z))%string else text z.


(** ** Field values and rows *)

Inductive value :=
| VUndefined
| VNull
| VBool (b : bool)
| VNum (n : number)
| VStr (s : string).

(** [ToNumber(v)] *)
Definition ToNumber (v : value) : number :=
  match v with
  | VUndefined => NaN
  | VNull => Fin 0
  | VBool true => Fin 1
  | VBool false => Fin 0
  | VNum n => n
  | VStr s => StringToNumber s
  end.

(** [a < b]: two strings compare by code units, anything else as numbers. *)
Definition js_lt (a b : value) : bool :=
  match a, b with
  | VStr s, VStr t => String.ltb s t
  | _, _ => num_ltb (ToNumber a) (ToNumber b)
  end.

(** [a > b] is [b < a]. *)
Definition js_gt (a b : value) : bool := js_lt b a.

(** [v.toString()]: a method call on [undefined] or [null] throws. *)
Definition toString (v : value) : completion string :=
  match v with
  | VUndefined | VNull => Throw TypeError
  | VBool true => Normal "true"%string
  | VBool false => Normal "false"%string
  | VNum (Fin z) => Normal (Number_toString z)
  | VNum NaN => Normal "NaN"%string
  | VNum PosInf => Normal "Infinity"%string
  | VNum NegInf => Normal "-Infinity"%string
  | VStr s => Normal s
  end.

(** A row is an object: its fields in order of definition. *)
Definition Row := list (string * value).

(** [row[key]]: the field's value, [undefined] when the row has no such
    field. *)
Fixpoint get (row : Row) (key : string) : value :=
  match row with
  | [] => VUndefined
  | (k, v) :: rest => if String.eqb k key then v else get rest key
  end.

(** ** Arrays *)

(** [xs.some(f)]: the callback runs on the elements in order until one
    returns true; an exception of the callback propagates. *)
Fixpoint Array_some {A} (f : A -> completion bool) (xs : list A) : completion bool :=
  match xs with
  | [] => Normal false
  | x :: rest =>
      b <- f x ;;
      if b then Normal true else Array_some f rest
  end.

(** [xs.filter(f)]: the callback runs on every element in order; the
    elements on which it returned true are kept, in order. *)
Fixpoint Array_filter {A} (f : A -> completion bool) (xs : list A) : completion (list A) :=
  match xs with
  | [] => Normal []
  | x :: rest =>
      b <- f x ;;
      kept <- Array_filter f rest ;;
      Normal (if b then x :: kept else kept)
  end.

(** [ToIntegerOrInfinity] followed by the clamping of a relative index of
    [slice] into [0, len]: a negative index counts from the end. *)
Definition relative_index (len : Z) (i : number) : Z :=
  match i with
  | NaN => 0
  | NegInf => 0
  | PosInf => len
  | Fin z => if z <? 0 then Z.max (len + z) 0 else Z.min z len
  end.

(** [xs.slice(start, end)] *)
Definition Array_slice {A} (xs : list A) (start stop : number) : list A :=
  let len := Z.of_nat (List.length xs) in
  let k := relative_index len start in
  let final := relative_index len stop in
  firstn (Z.to_nat (Z.max (final - k) 0)) (skipn (Z.to_nat k) xs).

Section Sort.
Context {A : Type}.
(** The comparator's result, a number, negative, zero or positive. *)
Variable comparefn : A -> A -> Z.

(** One element enters an ordered run: it moves behind the elements it
    compares greater than, and stops at the first one it does not. *)
Fixpoint sort_insert (x : A) (run : list A) : list A :=
  match run with
  | [] => [x]
  | y :: rest =>
      if 0 <? comparefn x y then y :: sort_insert x rest else x :: run
  end.

(** [xs.sort(comparefn)], by value.  The language requires the sort to be
    stable and leaves the algorithm to the engine; the model is the
    insertion sort.  When the comparator is consistent on the array every
    stable sort returns this very sequence ([stable_sort_unique]); when it
    is not, the order is the engine's own, and only what holds of every
    rearrangement is stated of the result. *)
Fixpoint Array_sort (xs : list A) : list A :=
  match xs with
  | [] => []
  | x :: rest => sort_insert x (Array_sort rest)
  end.
End Sort.

(** The comparator does not put [a] after [b]. *)
Definition not_after {A} (comparefn : A -> A -> Z) (a b : A) : Prop :=
  comparefn a b <= 0.

(** Neither of [a] and [b] is put after the other: the comparator ties
    them. *)
Definition tied {A} (comparefn : A -> A -> Z) (a b : A) : bool :=
  (comparefn a b <=? 0) && (comparefn b a <=? 0).

(** [ys] is a stable sort of [xs]: the same elements, none put after a
    later one, tied elements in the order they have in [xs]. *)
Definition stable_sort_of {A} (comparefn : A -> A -> Z) (ys xs : list A) : Prop :=
  Permutation ys xs
  /\ StronglySorted (not_after comparefn) ys
  /\ forall a, In a xs -> filter (tied comparefn a) ys = filter (tied comparefn a) xs.

(** ** The store of arrays

    Arrays are objects: [data] is a reference, [[...data]] allocates a new
    array and [sort] reorders the array it is called on and returns it. *)

Definition ref := nat.
Definition store := list (list Row).

Definition deref (h : store) (r : ref) : list Row := nth r h [].

Fixpoint store_set (h : store) (r : ref) (xs : list Row) : store :=
  match h, r with
  | [], _ => []
  | _ :: t, O => xs :: t
  | a :: t, S r' => a :: store_set t r' xs
  end.

(** [[...xs]]: a fresh array with the elements of [xs]. *)
Definition spread (h : store) (r : ref) : store * ref :=
  (h ++ [deref h r], List.length h).

(** [r.sort(comparefn)]: sorts the array at [r] in place, returns [r]. *)
Definition sort_in_place (comparefn : Row -> Row -> Z) (h : store) (r : ref) : store * ref :=
  (store_set h r (Array_sort comparefn (deref h r)), r).

(** ** Props and state *)

(** [interface Column]; the optional [render] only draws a cell and is left
    with the drawing; an absent [sortable] is falsy. *)
Record Column := {
  header : string;
  accessor : string;
  sortable : bool
}.

Inductive Direction := ascending | descending.

Record SortConfig := {
  key : string;
  direction : Direction
}.

(** [interface TableProps]; [pagination] is [None] when the prop is omitted,
    [sorting] and [filtering] are false when omitted, [theme] is a class
    name of the drawing. *)
Record TableProps := {
  columns : list Column;
  data : list Row;
  pagination : option number;
  sorting : bool;
  filtering : bool
}.

(** The four state cells of the component. *)
Record WidgetState := {
  currentPage : number;
  searchTerm : string;
  pageSize : number;
  sortConfig : option SortConfig
}.

(** [pagination?.pageSize || 10] *)
Definition initialPageSize (pagination : option number) : number :=
  match pagination with
  | Some n => if num_truthy n then n else Fin 10
  | None => Fin 10
  end.

(** The state at mount: the arguments of the four [useState] calls. *)
Definition initialState (p : TableProps) : WidgetState :=
  {| currentPage := Fin 1;
     searchTerm := EmptyString;
     pageSize := initialPageSize (pagination p);
     sortConfig := None |}.

Definition setCurrentPage (n : number) (st : WidgetState) : WidgetState :=
  {| currentPage := n; searchTerm := searchTerm st;
     pageSize := pageSize st; sortConfig := sortConfig st |}.

Definition setSearchTerm (s : string) (st : WidgetState) : WidgetState :=
  {| currentPage := currentPage st; searchTerm := s;
     pageSize := pageSize st; sortConfig := sortConfig st |}.

Definition setPageSize (n : number) (st : WidgetState) : WidgetState :=
  {| currentPage := currentPage st; searchTerm := searchTerm st;
     pageSize := n; sortConfig := sortConfig st |}.

Definition setSortConfig (c : option SortConfig) (st : WidgetState) : WidgetState :=
  {| currentPage := currentPage st; searchTerm := searchTerm st;
     pageSize := pageSize st; sortConfig := c |}.

(** ** Handlers *)

(** [handleSearch], on the input's new text. *)
Definition handleSearch (text : string) (st : WidgetState) : WidgetState :=
  setCurrentPage (Fin 1) (setSearchTerm text st).

(** [handlePageSizeChange], on the select's new value. *)
Definition handlePageSizeChange (text : string) (st : WidgetState) : WidgetState :=
  setCurrentPage (Fin 1) (setPageSize (StringToNumber text) st).

Definition Direction_eqb (a b : Direction) : bool :=
  match a, b with
  | ascending, ascending | descending, descending => true
  | _, _ => false
  end.

(** [handleSort] *)
Definition handleSort (k : string) (st : WidgetState) : WidgetState :=
  let direction :=
    match sortConfig st with
    | Some c =>
        if String.eqb (key c) k && Direction_eqb (direction c) ascending
        then descending else ascending
    | None => ascending
    end in
  setSortConfig (Some {| key := k; direction := direction |}) st.

(** The [onClick] of a column header. *)
Definition headerClick (p : TableProps) (column : Column) (st : WidgetState) : WidgetState :=
  if sorting p && sortable column then handleSort (accessor column) st else st.

(** ** The derivation pipeline *)

(** The comparator handed to [sort]. *)
Definition comparator (c : SortConfig) (a b : Row) : Z :=
  if js_lt (get a (key c)) (get b (key c)) then
    match direction c with ascending => -1 | descending => 1 end
  else if js_gt (get a (key c)) (get b (key c)) then
    match direction c with ascending => 1 | descending => -1 end
  else 0.

(** [sortedData], by value. *)
Definition sortedData (p : TableProps) (st : WidgetState) : list Row :=
  if negb (sorting p) then data p else
  match sortConfig st with
  | None => data p
  | Some c => Array_sort (comparator c) (data p)
  end.

(** [sortedData] on the store: [d] is the reference the caller passed as
    [data]; the result is the new store and the reference returned. *)
Definition sortedData_ref (sorting : bool) (cfg : option SortConfig)
    (h : store) (d : ref) : store * ref :=
  if negb sorting then (h, d) else
  match cfg with
  | None => (h, d)
  | Some c => let '(h1, copy) := spread h d in sort_in_place (comparator c) h1 copy
  end.

(** The callback of [columns.some] for one row. *)
Definition cellMatches (term : string) (row : Row) (column : Column) : completion bool :=
  text <- toString (get row (accessor column)) ;;
  Normal (includes (toLowerCase text) (toLowerCase term)).

(** The callback of [sortedData.filter]. *)
Definition rowMatches (cols : list Column) (term : string) (row : Row) : completion bool :=
  Array_some (cellMatches term row) cols.

(** [filteredData]; the empty search term is falsy. *)
Definition filteredData (p : TableProps) (st : WidgetState) : completion (list Row) :=
  if negb (filtering p) || String.eqb (searchTerm st) EmptyString
  then Normal (sortedData p st)
  else Array_filter (rowMatches (columns p) (searchTerm st)) (sortedData p st).

(** The slice taken by [paginatedData] out of the filtered rows. *)
Definition pageSlice (rows : list Row) (page size : number) : list Row :=
  let startIndex := num_mul (num_sub page (Fin 1)) size in
  Array_slice rows startIndex (num_add startIndex size).

(** [paginatedData] *)
Definition paginatedData (p : TableProps) (st : WidgetState) : completion (list Row) :=
  rows <- filteredData p st ;;
  Normal (pageSlice rows (currentPage st) (pageSize st)).

Definition pageCount (rows : list Row) (size : number) : number :=
  Math_ceil_div (Fin (Z.of_nat (List.length rows))) size.

(** [totalPages] *)
Definition totalPages (p : TableProps) (st : WidgetState) : completion number :=
  rows <- filteredData p st ;;
  Normal (pageCount rows (pageSize st)).

(** ** The controls

    The pagination buttons, with their [disabled] attributes, the search
    input and the page-size select, drawn only when [filtering] is set, and
    the column headers. *)

(** The updater of the Previous button. *)
Definition previousPage (prev : number) : number :=
  Math_max (num_sub prev (Fin 1)) (Fin 1).

Definition previousDisabled (st : WidgetState) : bool :=
  num_eqb (currentPage st) (Fin 1).

(** The updater of the Next button; [total] is the [totalPages] of the
    render that drew the button. *)
Definition nextPage (total prev : number) : number :=
  Math_min (num_add prev (Fin 1)) total.

Definition nextDisabled (total : number) (st : WidgetState) : bool :=
  num_eqb (currentPage st) total.

(** The values of the select's options. *)
Definition pageSizeOptions : list string :=
  ["5"; "10"; "25"; "50"]%string.

Inductive event :=
| SearchInput (text : string)
| PageSizeSelect (text : string)
| HeaderClick (column : Column)
| PreviousClick
| NextClick.

(** What the rendered table can emit: the select only yields the value of
    one of its options, and the headers are those of [columns]. *)
Definition offered (p : TableProps) (ev : event) : Prop :=
  match ev with
  | PageSizeSelect text => In text pageSizeOptions
  | HeaderClick column => In column (columns p)
  | _ => True
  end.

(** One event on the table as last rendered.  The render computes
    [totalPages], so an exception of the pipeline leaves nothing to
    interact with; a disabled button and a control that is not drawn do
    nothing. *)
Definition fire (p : TableProps) (st : WidgetState) (ev : event) : completion WidgetState :=
  total <- totalPages p st ;;
  Normal
    match ev with
    | SearchInput text => if filtering p then handleSearch text st else st
    | PageSizeSelect text => if filtering p then handlePageSizeChange text st else st
    | HeaderClick column => headerClick p column st
    | PreviousClick =>
        if previousDisabled st then st
        else setCurrentPage (previousPage (currentPage st)) st
    | NextClick =>
        if nextDisabled total st then st
        else setCurrentPage (nextPage total (currentPage st)) st
    end.

(** A run of events from the state at mount. *)
Fixpoint run (p : TableProps) (st : WidgetState) (evs : list event) : completion WidgetState :=
  match evs with
  | [] => Normal st
  | ev :: rest => st' <- fire p st ev ;; run p st' rest
  end.

(** The states the handlers can reach from the state at mount. *)
Inductive reachable (p : TableProps) : WidgetState -> Prop :=
| reach_mount : reachable p (initialState p)
| reach_event st ev st' :
    reachable p st -> offered p ev -> fire p st ev = Normal st' ->
    reachable p st'.

(** The configured page size is a count of rows when it is given as a
    number. *)
Definition pagination_ok (p : TableProps) : Prop :=
  match pagination p with
  | Some (Fin z) => 0 <= z
  | Some NaN | None => True
  | Some _ => False
  end.

(** ** Reading the results *)

(** Some column's text of the row, lowercased, contains the lowercased
    search term. *)
Definition someColumnMatches (cols : list Column) (term : string) (row : Row) : bool :=
  existsb
    (fun column =>
       match toString (get row (accessor column)) with
       | Normal text => includes (toLowerCase text) (toLowerCase term)
       | Throw _ => false
       end)
    cols.

(** The order a sort configuration asks of two neighbours: the first is
    not greater than the second when ascending, not less when descending. *)
Definition in_order (c : SortConfig) (a b : Row) : Prop :=
  match direction c with
  | ascending => js_gt (get a (key c)) (get b (key c)) = false
  | descending => js_lt (get a (key c)) (get b (key c)) = false
  end.

(** A value that the relational operators take as a number that is not
    NaN, without reading it from a string: a number but NaN, a boolean or
    [null]. *)
Definition numeric_value (v : value) : Prop :=
  match v with
  | VNum n => n <> NaN
  | VBool _ | VNull => True
  | VUndefined | VStr _ => False
  end.

(** A column that the relational operators order: every row holds a string
    at the key, or every row holds a numeric value. *)
Definition comparable_column (k : string) (rows : list Row) : Prop :=
  (forall row, In row rows -> exists s, get row k = VStr s)
  \/ (forall row, In row rows -> numeric_value (get row k)).

Definition number_eq_dec (a b : number) : {a = b} + {a <> b}.
Proof. decide equality. apply Z.eq_dec. Defined.

Definition value_eq_dec (a b : value) : {a = b} + {a <> b}.
Proof.
  decide equality.
  - apply Bool.bool_dec.
  - apply number_eq_dec.
  - apply string_dec.
Defined.

(** The row's field [k] holds the value [v]. *)
Definition has_value (k : string) (v : value) (row : Row) : bool :=
  if value_eq_dec (get row k) v then true else false.

(** The props with another [data] array. *)
Definition with_data (rows : list Row) (p : TableProps) : TableProps :=
  {| columns := columns p; data := rows; pagination := pagination p;
     sorting := sorting p; filtering := filtering p |}.

(** The page shown when [currentPage] is [c]. *)
Definition pageAt (p : TableProps) (st : WidgetState) (c : Z) : completion (list Row) :=
  paginatedData p (setCurrentPage (Fin c) st).

(** ** Tables used as examples *)

Definition nameColumn : Column :=
  {| header := "Name"; accessor := "name"; sortable := true |}.

Definition named (s : string) : Row := [("name"%string, VStr s)].

Definition names_table : TableProps :=
  {| columns := [nameColumn];
     data := [named "Bob"; named "Amy"; named "Cid"];
     pagination := None; sorting := true; filtering := false |}.

Definition search_table : TableProps :=
  {| columns := [nameColumn];
     data := [named "Amy"; named "Bob"];
     pagination := None; sorting := false; filtering := true |}.

Definition empty_table : TableProps :=
  {| columns := [nameColumn]; data := [];
     pagination := None; sorting := false; filtering := false |}.

(** A second column drawn by a [render] function, with no field of its
    name in the rows. *)
Definition actions_table : TableProps :=
  {| columns := [nameColumn;
                 {| header := "Actions"; accessor := "actions"; sortable := false |}];
     data := [named "Amy"];
     pagination := None; sorting := false; filtering := true |}.

Definition five_rows_table : TableProps :=
  {| columns := [nameColumn];
     data := [named "a"; named "b"; named "c"; named "d"; named "e"];
     pagination := Some (Fin 2); sorting := false; filtering := false |}.

(** The sort indicator drawn after the label of a column header: an up
    arrow, a down arrow or the two-way arrow. *)
Inductive Indicator := ArrowUp | ArrowDown | ArrowUpDown.

(** The indicator of a header, [None] when none is drawn.  Without a sort
    configuration [sortConfig?.key] is [undefined], which no accessor
    equals. *)
Definition sortIndicator (p : TableProps) (st : WidgetState) (column : Column) : option Indicator :=
  if sorting p && sortable column then
    Some
      match sortConfig st with
      | Some c =>
          if String.eqb (key c) (accessor column) then
            if Direction_eqb (direction c) ascending then ArrowUp else ArrowDown
          else ArrowUpDown
      | None => ArrowUpDown
      end
  else None.

(** A table with both features on and two fields in every row. *)
Definition person (name city : string) : Row :=
  [("name"%string, VStr name); ("city"%string, VStr city)].

Definition people_table : TableProps :=
  {| columns := [nameColumn;
                 {| header := "City"; accessor := "city"; sortable := true |}];
     data := [person "Bob" "Oslo"; person "amy" "Rome"; person "Cid" "Oslo"];
     pagination := Some (Fin 2); sorting := true; filtering := true |}.

(** A sortable column drawn by a [render] function, with no field of its
    name in the rows. *)
Definition actionsColumn : Column :=
  {| header := "Actions"; accessor := "actions"; sortable := true |}.

Definition render_only_table : TableProps :=
  {| columns := [nameColumn; actionsColumn];
     data := [named "Bob"; named "Amy"; named "Cid"];
     pagination := None; sorting := true; filtering := false |}.

(** A numeric column in which one row has no value. *)
Definition valueColumn : Column :=
  {| header := "Value"; accessor := "v"; sortable := true |}.

Definition valued (z : Z) : Row := [("v"%string, VNum (Fin z))].

Definition gappy_table : TableProps :=
  {| columns := [valueColumn];
     data := [valued 2; []; valued 1];
     pagination := None; sorting := true; filtering := false |}.

(** A name that starts with the capital E with an acute accent, code unit
    201; the small letter is the code unit 233. *)
Definition ecole_table : TableProps :=
  {| columns := [nameColumn];
     data := [named (String "201" "cole"); named "Bob"];
     pagination := None; sorting := false; filtering := true |}.

(** * Properties *)

(** ** The sort toggle *)

Lemma handleSort_sets_key k st :
  exists d, sortConfig (handleSort k st) = Some {| key := k; direction := d |}.
Proof. unfold handleSort; simpl; eauto. Qed.

Lemma fire_keeps_sort p st ev st' :
  fire p st ev = Normal st' -> sortConfig st <> None -> sortConfig st' <> None.
Proof.
  unfold fire, bind.
  destruct (totalPages p st) as [total|]; [|discriminate].
  intros [= <-] Hset.
  destruct ev; simpl.
  - destruct (filtering p); assumption.
  - destruct (filtering p); assumption.
  - unfold headerClick. destruct (sorting p && sortable column); [|assumption].
    simpl. discriminate.
  - destruct (previousDisabled st); assumption.
  - destruct (nextDisabled total st); assumption.
Qed.

Lemma run_keeps_sort p evs : forall st st',
  run p st evs = Normal st' -> sortConfig st <> None -> sortConfig st' <> None.
Proof.
  induction evs as [|ev evs IH]; simpl; intros st st' Hrun Hset.
  - injection Hrun as <-. assumption.
  - destruct (fire p st ev) as [st1|] eqn:Hfire; simpl in Hrun; [|discriminate].
    eapply IH; [eassumption|]. eapply fire_keeps_sort; eassumption.
Qed.

(** C5: a header activation sets {key, ascending} when no sort is active or
    the active sort is on another key, turns {key, ascending} into
    {key, descending} and {key, descending} into {key, ascending}; after one
    or more activations, and after any later events, the sort is never unset
    again. *)
Theorem handleSort_two_state_toggle :
  (forall k st,
      sortConfig st = None \/ (exists c, sortConfig st = Some c /\ key c <> k) ->
      sortConfig (handleSort k st) = Some {| key := k; direction := ascending |})
  /\ (forall k st,
      sortConfig st = Some {| key := k; direction := ascending |} ->
      sortConfig (handleSort k st) = Some {| key := k; direction := descending |})
  /\ (forall k st,
      sortConfig st = Some {| key := k; direction := descending |} ->
      sortConfig (handleSort k st) = Some {| key := k; direction := ascending |})
  /\ (forall k ks st,
      sortConfig (fold_left (fun s k' => handleSort k' s) (k :: ks) st) <> None)
  /\ (forall p st evs st',
      sortConfig st <> None -> run p st evs = Normal st' -> sortConfig st' <> None).
Proof.
  repeat split.
  - intros k st [Hnone | (c & Hsome & Hkey)]; unfold handleSort; simpl.
    + rewrite Hnone. reflexivity.
    + rewrite Hsome. apply String.eqb_neq in Hkey. rewrite Hkey. reflexivity.
  - intros k st H. unfold handleSort; simpl. rewrite H; simpl.
    rewrite String.eqb_refl. reflexivity.
  - intros k st H. unfold handleSort; simpl. rewrite H; simpl.
    rewrite String.eqb_refl. reflexivity.
  - intros k ks. revert k.
    induction ks as [|k' ks IH]; intros k st; simpl.
    + discriminate.
    + apply (IH k' (handleSort k st)).
  - intros p st evs st' Hset Hrun. eapply run_keeps_sort; eassumption.
Qed.

Lemma handleSort_two_state_toggle_witness :
  sortConfig (handleSort "name" (initialState names_table))
    = Some {| key := "name"; direction := ascending |}
  /\ sortConfig (handleSort "name" (handleSort "name" (initialState names_table)))
    = Some {| key := "name"; direction := descending |}
  /\ sortConfig
       (handleSort "name"
          (handleSort "name" (handleSort "name" (initialState names_table))))
    = Some {| key := "name"; direction := ascending |}.
Proof.
  destruct handleSort_two_state_toggle as (Hfirst & Hasc & Hdesc & _).
  assert (H1 : sortConfig (handleSort "name" (initialState names_table))
               = Some {| key := "name"; direction := ascending |}).
  { apply Hfirst. left. reflexivity. }
  assert (H2 : sortConfig (handleSort "name" (handleSort "name" (initialState names_table)))
               = Some {| key := "name"; direction := descending |}).
  { apply Hasc. exact H1. }
  exact (conj H1 (conj H2 (Hdesc _ _ H2))).
Defined.

(** ** Search and page-size changes *)

(** C9: the search-input handler stores the new text and the page-size
    handler stores the number read from the selected value; each sets
    currentPage to 1 from every prior state, and leaves the other cells as
    they were. *)
Theorem handlers_reset_currentPage :
  forall text st,
    (currentPage (handleSearch text st) = Fin 1
     /\ searchTerm (handleSearch text st) = text
     /\ pageSize (handleSearch text st) = pageSize st
     /\ sortConfig (handleSearch text st) = sortConfig st)
    /\ (currentPage (handlePageSizeChange text st) = Fin 1
        /\ pageSize (handlePageSizeChange text st) = StringToNumber text
        /\ searchTerm (handlePageSizeChange text st) = searchTerm st
        /\ sortConfig (handlePageSizeChange text st) = sortConfig st).
Proof. intros text st. repeat split. Qed.

Lemma pageSizeOptions_numbers :
  map StringToNumber pageSizeOptions = [Fin 5; Fin 10; Fin 25; Fin 50].
Proof. reflexivity. Qed.

(** ** The initial page size *)

(** C10: the initial page size is the configured pagination.pageSize exactly
    when that number is truthy; with the prop omitted, or a page size of 0
    or NaN, it is the default 10. *)
Theorem initialPageSize_default :
  (forall n, num_truthy n = true -> initialPageSize (Some n) = n)
  /\ (forall n, num_truthy n = false -> initialPageSize (Some n) = Fin 10)
  /\ initialPageSize None = Fin 10
  /\ initialPageSize (Some (Fin 0)) = Fin 10
  /\ initialPageSize (Some NaN) = Fin 10
  /\ (forall n, num_truthy n = false <-> n = Fin 0 \/ n = NaN)
  /\ (forall p, pageSize (initialState p) = initialPageSize (pagination p)).
Proof.
  repeat match goal with |- _ /\ _ => split end; try reflexivity.
  - intros n H. unfold initialPageSize. rewrite H. reflexivity.
  - intros n H. unfold initialPageSize. rewrite H. reflexivity.
  - intros n. split.
    + destruct n as [z| | |]; simpl; intro H; try discriminate; auto.
      left. f_equal. apply Z.eqb_eq. destruct (z =? 0); [reflexivity|discriminate].
    + intros [-> | ->]; reflexivity.
Qed.

Lemma initialPageSize_default_witness :
  initialPageSize (Some (Fin 25)) = Fin 25
  /\ initialPageSize (Some (Fin 0)) = Fin 10.
Proof.
  destruct initialPageSize_default as (Htruthy & Hfalsy & _).
  exact (conj (Htruthy (Fin 25) eq_refl) (Hfalsy (Fin 0) eq_refl)).
Defined.

(** ** Page arithmetic *)

Lemma previousPage_Fin c : previousPage (Fin c) = Fin (Z.max (c - 1) 1).
Proof.
  unfold previousPage, num_sub, Math_max; simpl.
  destruct (Z.ltb_spec (c + -1) 1); f_equal; lia.
Qed.

Lemma nextPage_Fin total c : nextPage (Fin total) (Fin c) = Fin (Z.min (c + 1) total).
Proof.
  unfold nextPage, Math_min; simpl.
  destruct (Z.ltb_spec total (c + 1)); f_equal; lia.
Qed.

Lemma previousDisabled_Fin st c :
  currentPage st = Fin c -> (previousDisabled st = true <-> c = 1).
Proof. unfold previousDisabled. intros ->. simpl. apply Z.eqb_eq. Qed.

Lemma nextDisabled_Fin st c total :
  currentPage st = Fin c -> (nextDisabled (Fin total) st = true <-> c = total).
Proof. unfold nextDisabled. intros ->. simpl. apply Z.eqb_eq. Qed.

(** The ceiling of [len / size] for a positive [size]. *)
Lemma ceil_div_bounds len size :
  0 < size ->
  (- ((- len) / size) - 1) * size < len <= - ((- len) / size) * size.
Proof.
  intros Hsize.
  pose proof (Z.mul_div_le (- len) size Hsize).
  pose proof (Z.mul_succ_div_gt (- len) size Hsize).
  nia.
Qed.

Lemma pageCount_Fin rows size :
  size <> 0 ->
  pageCount rows (Fin size) = Fin (- ((- Z.of_nat (List.length rows)) / size)).
Proof.
  intros Hsize. unfold pageCount, Math_ceil_div.
  apply Z.eqb_neq in Hsize. rewrite Hsize. reflexivity.
Qed.

Lemma pageCount_empty size : size <> 0 -> pageCount [] (Fin size) = Fin 0.
Proof. intros Hsize. rewrite pageCount_Fin by assumption. reflexivity. Qed.

Lemma initialPageSize_positive p :
  pagination_ok p -> exists size, initialPageSize (pagination p) = Fin size /\ 0 < size.
Proof.
  unfold pagination_ok, initialPageSize.
  destruct (pagination p) as [[z| | |]|]; simpl; intros Hok;
    try contradiction; try (exists 10; split; [reflexivity|lia]).
  destruct (Z.eqb_spec z 0); simpl.
  - exists 10. split; [reflexivity|lia].
  - exists z. split; [reflexivity|lia].
Qed.

Lemma pageSizeOptions_positive text :
  In text pageSizeOptions -> exists size, StringToNumber text = Fin size /\ 0 < size.
Proof.
  simpl.
  intros [<- | [<- | [<- | [<- | []]]]];
    [exists 5 | exists 10 | exists 25 | exists 50]; (split; [reflexivity|lia]).
Qed.

(** ** The sort stage keeps the rows *)

Section SortFacts.
Context {A : Type}.
Variable comparefn : A -> A -> Z.

Lemma sort_insert_perm x run : Permutation (sort_insert comparefn x run) (x :: run).
Proof.
  induction run as [|y rest IH]; simpl.
  - reflexivity.
  - destruct (0 <? comparefn x y).
    + rewrite IH. apply perm_swap.
    + reflexivity.
Qed.

Lemma Array_sort_perm xs : Permutation (Array_sort comparefn xs) xs.
Proof.
  induction xs as [|x rest IH]; simpl.
  - constructor.
  - rewrite sort_insert_perm. constructor. exact IH.
Qed.

(** The neighbours of the result do not compare as out of order,
    provided the comparator never puts two elements out of order both
    ways round. *)
Hypothesis comparefn_asym : forall a b, 0 < comparefn a b -> comparefn b a <= 0.

Lemma sort_insert_Sorted x run :
  Sorted (not_after comparefn) run ->
  Sorted (not_after comparefn) (sort_insert comparefn x run).
Proof.
  induction 1 as [|y rest Hrest IH Hhd]; simpl.
  - repeat constructor.
  - destruct (Z.ltb_spec 0 (comparefn x y)) as [Hgt | Hle].
    + constructor; [exact IH|].
      destruct Hhd as [|z rest' Hyz]; simpl.
      * constructor. apply comparefn_asym, Hgt.
      * destruct (0 <? comparefn x z); constructor;
          [exact Hyz | apply comparefn_asym, Hgt].
    + constructor; [constructor; assumption|]. constructor. exact Hle.
Qed.

Lemma Array_sort_Sorted xs :
  Sorted (not_after comparefn) (Array_sort comparefn xs).
Proof.
  induction xs as [|x rest IH]; simpl.
  - constructor.
  - apply sort_insert_Sorted, IH.
Qed.
End SortFacts.

Section SortStable.
Context {A : Type}.
Variable comparefn : A -> A -> Z.

(** A run whose neighbours are in order is left as it is. *)
Lemma Array_sort_fixed xs :
  Sorted (not_after comparefn) xs -> Array_sort comparefn xs = xs.
Proof.
  induction 1 as [|x rest Hrest IH Hhd]; simpl.
  - reflexivity.
  - rewrite IH. destruct Hhd as [|y rest' Hxy]; simpl.
    + reflexivity.
    + unfold not_after in Hxy.
      destruct (Z.ltb_spec 0 (comparefn x y)); [lia|reflexivity].
Qed.

(** Elements of a class [q] whose members never compare as greater than
    one another keep their order. *)
Variable q : A -> bool.

Lemma filter_sort_insert x run :
  (forall y, In y run -> q x = true -> q y = true -> comparefn x y <= 0) ->
  filter q (sort_insert comparefn x run) = filter q (x :: run).
Proof.
  induction run as [|y rest IH]; simpl; intros Hties.
  - reflexivity.
  - destruct (Z.ltb_spec 0 (comparefn x y)) as [Hgt | Hle]; [|reflexivity].
    simpl. rewrite IH by (intros z Hz; apply Hties; right; exact Hz). simpl.
    destruct (q x) eqn:Hx, (q y) eqn:Hy; try reflexivity.
    specialize (Hties y (or_introl eq_refl) eq_refl Hy). lia.
Qed.

Lemma filter_Array_sort xs :
  (forall a b, In a xs -> In b xs -> q a = true -> q b = true -> comparefn a b <= 0) ->
  filter q (Array_sort comparefn xs) = filter q xs.
Proof.
  induction xs as [|x rest IH]; simpl; intros Hties.
  - reflexivity.
  - rewrite filter_sort_insert.
    + simpl. rewrite IH; [reflexivity|].
      intros a b Ha Hb. apply Hties; right; assumption.
    + intros y Hy. apply Hties; [left; reflexivity|].
      right. apply Permutation_in with (l := Array_sort comparefn rest);
        [apply Array_sort_perm | exact Hy].
Qed.
End SortStable.

(** When the order is transitive on the elements at hand, neighbours in
    order make the whole run ordered. *)
Lemma Sorted_StronglySorted_on {A} (R : A -> A -> Prop) (xs : list A) :
  (forall a b c, In a xs -> In b xs -> In c xs -> R a b -> R b c -> R a c) ->
  Sorted R xs -> StronglySorted R xs.
Proof.
  intros Htrans Hsorted.
  induction Hsorted as [|x rest Hrest IH Hhd].
  - constructor.
  - assert (Hss : StronglySorted R rest).
    { apply IH. intros a b c Ha Hb Hc. apply Htrans; right; assumption. }
    constructor; [exact Hss|].
    destruct Hhd as [|y rest' Hxy]; [constructor|].
    apply StronglySorted_inv in Hss as [_ Hall].
    constructor; [exact Hxy|].
    rewrite Forall_forall in Hall |- *.
    intros z Hz.
    apply (Htrans x y z); simpl; auto.
Qed.

(** ** The model of the sort

    Two ordered arrangements of the same elements that agree on the order
    inside every class of tied elements are one and the same; so, for a
    comparator that is consistent on the array, any sort that is stable
    returns what [Array_sort] returns. *)

Section SortUnique.
Context {A : Type}.
Variable comparefn : A -> A -> Z.

Lemma ordered_stable_unique : forall ys zs : list A,
  Permutation ys zs ->
  StronglySorted (not_after comparefn) ys ->
  StronglySorted (not_after comparefn) zs ->
  (forall a, In a ys -> comparefn a a <= 0) ->
  (forall a, In a ys -> filter (tied comparefn a) ys = filter (tied comparefn a) zs) ->
  ys = zs.
Proof.
  induction ys as [|y ys IH]; intros zs Hperm Hys Hzs Hrefl Hclass.
  - apply Permutation_nil in Hperm. congruence.
  - destruct zs as [|z zs].
    { apply Permutation_sym, Permutation_nil in Hperm. discriminate. }
    apply StronglySorted_inv in Hys as [Hys Hy].
    apply StronglySorted_inv in Hzs as [Hzs Hz].
    rewrite Forall_forall in Hy, Hz.
    assert (Hyy : tied comparefn y y = true).
    { unfold tied. pose proof (Hrefl y (or_introl eq_refl)) as Hr.
      apply Z.leb_le in Hr. rewrite Hr. reflexivity. }
    assert (Heq : y = z).
    { assert (Hyz : tied comparefn y z = true).
      { assert (Hzin : In z (y :: ys))
          by (apply Permutation_in with (l := z :: zs);
              [symmetry; exact Hperm | left; reflexivity]).
        assert (Hyin : In y (z :: zs))
          by (apply Permutation_in with (l := y :: ys);
              [exact Hperm | left; reflexivity]).
        destruct Hzin as [<- | Hzin]; [exact Hyy|].
        destruct Hyin as [-> | Hyin]; [exact Hyy|].
        unfold tied. apply andb_true_intro.
        split; apply Z.leb_le; [apply Hy, Hzin | apply Hz, Hyin]. }
      specialize (Hclass y (or_introl eq_refl)). simpl in Hclass.
      rewrite Hyy, Hyz in Hclass. congruence. }
    subst z. f_equal. apply IH.
    + apply Permutation_cons_inv in Hperm. exact Hperm.
    + exact Hys.
    + exact Hzs.
    + intros a Ha. apply Hrefl. right. exact Ha.
    + intros a Ha. specialize (Hclass a (or_intror Ha)). simpl in Hclass.
      destruct (tied comparefn a y); congruence.
Qed.

Variable xs : list A.
Hypothesis comparefn_refl : forall a, In a xs -> comparefn a a <= 0.
Hypothesis comparefn_asym : forall a b, 0 < comparefn a b -> comparefn b a <= 0.
Hypothesis comparefn_trans : forall a b c,
  In a xs -> In b xs -> In c xs ->
  not_after comparefn a b -> not_after comparefn b c -> not_after comparefn a c.

Lemma Array_sort_StronglySorted :
  StronglySorted (not_after comparefn) (Array_sort comparefn xs).
Proof.
  apply Sorted_StronglySorted_on; [|apply Array_sort_Sorted, comparefn_asym].
  pose proof (Array_sort_perm comparefn xs) as Hperm.
  intros a b c Ha Hb Hc. apply comparefn_trans; eapply Permutation_in; eassumption.
Qed.

Lemma Array_sort_stable a :
  In a xs ->
  filter (tied comparefn a) (Array_sort comparefn xs) = filter (tied comparefn a) xs.
Proof.
  intros Ha. apply filter_Array_sort.
  intros b c Hb Hc Hab Hac. unfold tied in Hab, Hac.
  apply andb_prop in Hab as [_ Hba]. apply andb_prop in Hac as [Hac _].
  apply Z.leb_le in Hba, Hac.
  apply (comparefn_trans b a c); assumption.
Qed.

Theorem stable_sort_unique ys :
  Permutation ys xs ->
  StronglySorted (not_after comparefn) ys ->
  (forall a, In a xs -> filter (tied comparefn a) ys = filter (tied comparefn a) xs) ->
  ys = Array_sort comparefn xs.
Proof.
  intros Hperm Hsorted Hstable.
  apply ordered_stable_unique.
  - rewrite Hperm. symmetry. apply Array_sort_perm.
  - exact Hsorted.
  - apply Array_sort_StronglySorted.
  - intros a Ha. apply comparefn_refl.
    apply Permutation_in with (l := ys); assumption.
  - intros a Ha.
    assert (Hin : In a xs) by (apply Permutation_in with (l := ys); assumption).
    rewrite Hstable, Array_sort_stable by exact Hin. reflexivity.
Qed.
End SortUnique.

(** Hence the results below do not hang on the engine: on an array where
    the comparator is consistent, whatever stable sort the engine runs
    returns the model's sequence, and running it again changes nothing. *)
Section AnyStableSort.
Context {A : Type}.
Variable comparefn : A -> A -> Z.
Variable engine_sort : list A -> list A.
Variable xs : list A.
Hypothesis comparefn_refl : forall a, In a xs -> comparefn a a <= 0.
Hypothesis comparefn_asym : forall a b, 0 < comparefn a b -> comparefn b a <= 0.
Hypothesis comparefn_trans : forall a b c,
  In a xs -> In b xs -> In c xs ->
  not_after comparefn a b -> not_after comparefn b c -> not_after comparefn a c.
Hypothesis engine_sort_stable : forall ys,
  Permutation ys xs ->
  Permutation (engine_sort ys) ys
  /\ StronglySorted (not_after comparefn) (engine_sort ys)
  /\ forall a, In a ys ->
       filter (tied comparefn a) (engine_sort ys) = filter (tied comparefn a) ys.


End AnyStableSort.

(** ** The relational operators *)

Lemma num_ltb_asym a b : num_ltb a b = true -> num_ltb b a = false.
Proof.
  destruct a as [x| | |], b as [y| | |]; simpl; try reflexivity; try discriminate.
  intros H. apply Z.ltb_lt in H. apply Z.ltb_ge. lia.
Qed.

Lemma String_ltb_asym s t : String.ltb s t = true -> String.ltb t s = false.
Proof.
  unfold String.ltb. rewrite (String.compare_antisym t s).
  destruct (String.compare s t); simpl; congruence.
Qed.

Lemma js_lt_asym a b : js_lt a b = true -> js_lt b a = false.
Proof.
  destruct a, b; unfold js_lt;
    first [apply String_ltb_asym | apply num_ltb_asym].
Qed.

Lemma js_lt_irrefl a : js_lt a a = false.
Proof.
  destruct (js_lt a a) eqn:H; [|reflexivity].
  pose proof (js_lt_asym _ _ H). congruence.
Qed.

Lemma comparator_asym c a b : 0 < comparator c a b -> comparator c b a <= 0.
Proof.
  unfold comparator, js_gt.
  destruct (js_lt (get a (key c)) (get b (key c))) eqn:Hab.
  - rewrite (js_lt_asym _ _ Hab). destruct (direction c); lia.
  - destruct (js_lt (get b (key c)) (get a (key c))) eqn:Hba;
      destruct (direction c); lia.
Qed.

Lemma comparator_in_order c a b : not_after (comparator c) a b <-> in_order c a b.
Proof.
  unfold not_after, comparator, in_order, js_gt.
  destruct (js_lt (get a (key c)) (get b (key c))) eqn:Hab.
  - rewrite (js_lt_asym _ _ Hab). destruct (direction c); split; (lia || congruence).
  - destruct (js_lt (get b (key c)) (get a (key c))) eqn:Hba;
      destruct (direction c); split; (lia || congruence).
Qed.

Lemma comparator_same_value c a b :
  get a (key c) = get b (key c) -> comparator c a b = 0.
Proof.
  unfold comparator, js_gt. intros ->. rewrite js_lt_irrefl. reflexivity.
Qed.

Lemma Sorted_impl {A} (R S : A -> A -> Prop) xs :
  (forall a b, R a b -> S a b) -> Sorted R xs -> Sorted S xs.
Proof.
  intros HRS. induction 1 as [|x rest Hrest IH Hhd]; constructor; auto.
  destruct Hhd; constructor; auto.
Qed.

(** ** The runtime on some values *)

Example toLowerCase_latin1 :
  toLowerCase (String "201" "COLE") = String "233" "cole"
  /\ toLowerCase (String "215" (String "223" "Z")) = String "215" (String "223" "z").
Proof. split; reflexivity. Qed.

Example Number_toString_values :
  map Number_toString [0; -12; 2 ^ 53; 2 ^ 60; 10 ^ 21; 2 ^ 70]
  = ["0"; "-12"; "9007199254740992"; "1152921504606847000"; "1e+21";
     "1.1805916207174113e+21"]%string.
Proof. vm_compute. reflexivity. Qed.

Example StringToNumber_values :
  map StringToNumber ["1e2"; "0x10"; "5.0"; " 12 "; ""; "abc"; "-Infinity"; "1e400"]%string
  = [Fin 100; Fin 16; Fin 5; Fin 12; Fin 0; NaN; NegInf; PosInf].
Proof. vm_compute. reflexivity. Qed.

Example js_lt_number_and_string :
  js_lt (VNum (Fin 50)) (VStr "1e2") = true /\ js_lt (VStr "10") (VStr "9") = true.
Proof. split; vm_compute; reflexivity. Qed.

Example filteredData_latin1 :
  filteredData ecole_table (handleSearch (String "233" "") (initialState ecole_table))
  = Normal [named (String "201" "cole")].
Proof. reflexivity. Qed.

(** ** The filter stage *)

Lemma prefix_spec t : forall s,
  String.prefix t s = true <-> exists post, s = (t ++ post)%string.
Proof.
  induction t as [|a t IH]; intros s.
  - split; [intros _; exists s; reflexivity | intros _; destruct s; reflexivity].
  - destruct s as [|b s]; simpl.
    + split; [discriminate | intros [post H]; discriminate].
    + destruct (ascii_dec a b) as [-> | Hneq].
      * rewrite IH. split; intros [post H]; exists post; congruence.
      * split; [discriminate | intros [post H]; congruence].
Qed.

(** [includes] is the substring test. *)
Lemma includes_spec t : forall s,
  includes s t = true <-> exists pre post, s = (pre ++ t ++ post)%string.
Proof.
  induction s as [|c s IH].
  - cbn [includes]. rewrite orb_false_r, prefix_spec. split.
    + intros [post H]. exists EmptyString, post. exact H.
    + intros (pre & post & H). destruct pre; [|discriminate].
      exists post. exact H.
  - cbn [includes]. rewrite orb_true_iff, prefix_spec, IH. split.
    + intros [[post H] | (pre & post & H)].
      * exists EmptyString, post. exact H.
      * exists (String c pre), post. simpl. congruence.
    + intros (pre & post & H). destruct pre as [|d pre].
      * left. exists post. exact H.
      * right. exists pre, post. simpl in H. congruence.
Qed.

Lemma rowMatches_Normal term row cols : forall b,
  rowMatches cols term row = Normal b -> b = someColumnMatches cols term row.
Proof.
  unfold rowMatches, someColumnMatches.
  induction cols as [|column rest IH]; simpl; intros b.
  - congruence.
  - unfold cellMatches at 1.
    destruct (toString (get row (accessor column))) as [text|]; simpl; [|discriminate].
    destruct (includes (toLowerCase text) (toLowerCase term)); simpl.
    + congruence.
    + apply IH.
Qed.

Lemma rowMatches_total term row cols :
  (forall column, In column cols ->
     exists text, toString (get row (accessor column)) = Normal text) ->
  rowMatches cols term row = Normal (someColumnMatches cols term row).
Proof.
  unfold rowMatches, someColumnMatches.
  induction cols as [|column rest IH]; simpl; intros Htext.
  - reflexivity.
  - unfold cellMatches at 1.
    destruct (Htext column (or_introl eq_refl)) as [text ->]; simpl.
    destruct (includes (toLowerCase text) (toLowerCase term)); simpl.
    + reflexivity.
    + apply IH. intros c Hc. apply Htext. right. exact Hc.
Qed.

(** A row that matches on no column and has a column without text makes
    the callback throw. *)
Lemma rowMatches_throws term row cols :
  someColumnMatches cols term row = false ->
  (exists column, In column cols /\ toString (get row (accessor column)) = Throw TypeError) ->
  rowMatches cols term row = Throw TypeError.
Proof.
  unfold rowMatches, someColumnMatches.
  induction cols as [|column rest IH]; simpl; intros Hnone (c & Hin & Hthrow).
  - contradiction.
  - unfold cellMatches at 1.
    apply orb_false_iff in Hnone as [Hhere Hrest].
    destruct Hin as [-> | Hin].
    + rewrite Hthrow. reflexivity.
    + destruct (toString (get row (accessor column))) as [text|[]]; simpl; [|reflexivity].
      rewrite Hhere. apply IH; [exact Hrest | exists c; auto].
Qed.

Section FilterFacts.
Context {A : Type}.
Variable f : A -> completion bool.
Variable g : A -> bool.
Hypothesis f_g : forall x b, f x = Normal b -> b = g x.

Lemma Array_filter_Normal xs : forall kept,
  Array_filter f xs = Normal kept ->
  kept = filter g xs /\ (forall x, In x xs -> f x = Normal (g x)).
Proof.
  induction xs as [|x rest IH]; simpl; intros kept.
  - intros [= <-]. split; [reflexivity | contradiction].
  - destruct (f x) as [b|] eqn:Hfx; simpl; [|discriminate].
    destruct (Array_filter f rest) as [kept'|]; simpl; [|discriminate].
    intros [= <-]. destruct (IH kept' eq_refl) as [-> Hall].
    rewrite <- (f_g x b Hfx). split; [reflexivity|].
    intros y [<- | Hy]; [|apply Hall, Hy].
    rewrite Hfx. f_equal. apply f_g, Hfx.
Qed.

Lemma Array_filter_total xs :
  (forall x, In x xs -> f x = Normal (g x)) ->
  Array_filter f xs = Normal (filter g xs).
Proof.
  induction xs as [|x rest IH]; simpl; intros Hall.
  - reflexivity.
  - rewrite (Hall x (or_introl eq_refl)); simpl.
    rewrite IH by (intros y Hy; apply Hall; right; exact Hy). reflexivity.
Qed.

Lemma Array_filter_throws xs x :
  In x xs -> f x = Throw TypeError -> Array_filter f xs = Throw TypeError.
Proof.
  induction xs as [|y rest IH]; simpl; intros Hin Hthrow.
  - contradiction.
  - destruct Hin as [-> | Hin].
    + rewrite Hthrow. reflexivity.
    + destruct (f y) as [b|[]]; simpl; [|reflexivity].
      rewrite (IH Hin Hthrow). reflexivity.
Qed.
End FilterFacts.

Lemma Permutation_filter {A} (g : A -> bool) xs ys :
  Permutation xs ys -> Permutation (filter g xs) (filter g ys).
Proof.
  induction 1 as [|x xs ys _ IH|x y xs|xs ys zs _ IH1 _ IH2]; simpl.
  - constructor.
  - destruct (g x); [constructor|]; exact IH.
  - destruct (g x), (g y); try reflexivity. apply perm_swap.
  - etransitivity; eassumption.
Qed.

Lemma sortedData_perm p st : Permutation (sortedData p st) (data p).
Proof.
  unfold sortedData.
  destruct (negb (sorting p)); [reflexivity|].
  destruct (sortConfig st) as [c|]; [apply Array_sort_perm | reflexivity].
Qed.

(** C2: with the filter enabled and a search term typed, a row without one
    of the columns' fields does not count as a non-match: reading the text
    of the missing value throws, and the exception ends the filter. *)
Theorem filteredData_throws_on_missing_field :
  get (named "Amy") "actions" = VUndefined
  /\ toString VUndefined = Throw TypeError
  /\ filteredData actions_table (handleSearch "z" (initialState actions_table))
     = Throw TypeError.
Proof. repeat split. Qed.

(** The same for every table: a row that matches on no column and lacks
    the text of some column ends the filter with the exception. *)
Lemma filteredData_throws p st row :
  filtering p = true -> searchTerm st <> EmptyString ->
  In row (data p) ->
  someColumnMatches (columns p) (searchTerm st) row = false ->
  (exists column, In column (columns p)
                  /\ toString (get row (accessor column)) = Throw TypeError) ->
  filteredData p st = Throw TypeError.
Proof.
  intros Hf Hterm Hin Hnone Hmissing. unfold filteredData.
  rewrite Hf. apply String.eqb_neq in Hterm. rewrite Hterm. simpl.
  apply Array_filter_throws with (x := row).
  - apply Permutation_in with (l := data p); [|exact Hin].
    symmetry. apply sortedData_perm.
  - apply rowMatches_throws; assumption.
Qed.

(** C3: with filtering enabled and a non-empty search term, filteredData is
    the sorted sequence restricted, in its order, to the rows of which some
    column's value, as text and lowercased, contains the lowercased term;
    this is the result whenever the filter returns, and it returns whenever
    every row has a text in every column.  For the rows Amy and Bob and the
    term a, the result is the row Amy. *)
Theorem filteredData_keeps_matching_rows p st :
  filtering p = true -> searchTerm st <> EmptyString ->
  (forall rows, filteredData p st = Normal rows ->
     rows = filter (someColumnMatches (columns p) (searchTerm st)) (sortedData p st))
  /\ ((forall row column, In row (data p) -> In column (columns p) ->
         exists text, toString (get row (accessor column)) = Normal text) ->
      filteredData p st
      = Normal (filter (someColumnMatches (columns p) (searchTerm st)) (sortedData p st)))
  /\ (forall row,
        someColumnMatches (columns p) (searchTerm st) row = true <->
        exists column text pre post,
          In column (columns p)
          /\ toString (get row (accessor column)) = Normal text
          /\ toLowerCase text = (pre ++ toLowerCase (searchTerm st) ++ post)%string)
  /\ filteredData search_table (handleSearch "a" (initialState search_table))
     = Normal [named "Amy"].
Proof.
  intros Hf Hterm.
  assert (Hfd : filteredData p st
                = Array_filter (rowMatches (columns p) (searchTerm st)) (sortedData p st)).
  { unfold filteredData. rewrite Hf. apply String.eqb_neq in Hterm.
    rewrite Hterm. reflexivity. }
  split; [|split; [|split]].
  - intros rows Hrows. rewrite Hfd in Hrows.
    eapply Array_filter_Normal in Hrows; [apply Hrows|].
    intros row b. apply rowMatches_Normal.
  - intros Htext. rewrite Hfd. apply Array_filter_total.
    intros row Hrow. apply rowMatches_total.
    intros column Hcolumn. apply Htext; [|exact Hcolumn].
    apply Permutation_in with (l := sortedData p st); [apply sortedData_perm | exact Hrow].
  - intros row. unfold someColumnMatches. rewrite existsb_exists. split.
    + intros (column & Hin & Hmatch).
      destruct (toString (get row (accessor column))) as [text|] eqn:Htext; [|discriminate].
      apply includes_spec in Hmatch as (pre & post & Heq).
      exists column, text, pre, post. auto.
    + intros (column & text & pre & post & Hin & Htext & Heq).
      exists column. split; [exact Hin|]. rewrite Htext.
      apply includes_spec. exists pre, post. exact Heq.
  - reflexivity.
Qed.

Lemma filteredData_keeps_matching_rows_witness :
  filteredData search_table (handleSearch "a" (initialState search_table))
  = Normal (filter (someColumnMatches [nameColumn] "a") [named "Amy"; named "Bob"]).
Proof.
  assert (Hterm : searchTerm (handleSearch "a" (initialState search_table)) <> EmptyString)
    by discriminate.
  destruct (filteredData_keeps_matching_rows search_table
              (handleSearch "a" (initialState search_table)) eq_refl Hterm)
    as (_ & Htotal & _).
  apply Htotal.
  intros row column Hrow Hcolumn. simpl in Hrow, Hcolumn.
  destruct Hcolumn as [<- | []].
  destruct Hrow as [<- | [<- | []]]; eexists; reflexivity.
Defined.

(** ** The paginate stage *)

Lemma filteredData_setCurrentPage p st n :
  filteredData p (setCurrentPage n st) = filteredData p st.
Proof. reflexivity. Qed.

(** From the first page on, the slice is the run of [size] rows that
    starts at [(c - 1) * size], cut at the end of the rows. *)
Lemma pageSlice_Fin rows c size :
  1 <= c -> 0 < size ->
  pageSlice rows (Fin c) (Fin size)
  = firstn (Z.to_nat size) (skipn (Z.to_nat ((c - 1) * size)) rows).
Proof.
  intros Hc Hsize.
  unfold pageSlice, Array_slice, num_sub; simpl.
  replace (c + -1) with (c - 1) by lia.
  set (len := Z.of_nat (List.length rows)).
  set (s := (c - 1) * size).
  assert (Hs : 0 <= s) by (unfold s; nia).
  destruct (Z.ltb_spec s 0) as [?|_]; [lia|].
  destruct (Z.ltb_spec (s + size) 0) as [?|_]; [lia|].
  destruct (Z.le_gt_cases len s) as [Hout | Hin].
  - rewrite (Z.min_r s len) by lia.
    rewrite !skipn_all2 by lia. rewrite !firstn_nil. reflexivity.
  - rewrite (Z.min_l s len) by lia.
    set (rest := skipn (Z.to_nat s) rows).
    assert (Hrest : Z.of_nat (List.length rest) = len - s).
    { unfold rest. rewrite length_skipn. unfold len. lia. }
    destruct (Z.le_gt_cases (s + size) len) as [Hfull | Hcut].
    + rewrite (Z.min_l (s + size) len) by lia. f_equal. lia.
    + rewrite (Z.min_r (s + size) len) by lia.
      rewrite !firstn_all2 by lia. reflexivity.
Qed.

(** Whatever the page, the slice has at most [size] rows. *)
Lemma pageSlice_length rows page size :
  0 < size -> Z.of_nat (List.length (pageSlice rows page (Fin size))) <= size.
Proof.
  intros Hsize. unfold pageSlice, Array_slice.
  set (len := Z.of_nat (List.length rows)).
  assert (Hlen : 0 <= len) by (unfold len; lia).
  match goal with
  | |- Z.of_nat (List.length (firstn ?n _)) <= _ =>
      assert (Hn : Z.of_nat n <= size); [|pose proof (firstn_le_length n
        (skipn (Z.to_nat (relative_index len
           (num_mul (num_sub page (Fin 1)) (Fin size)))) rows)); lia]
  end.
  destruct page as [c| | |].
  - simpl.
    destruct (Z.ltb_spec ((c + -1) * size) 0), (Z.ltb_spec ((c + -1) * size + size) 0); lia.
  - simpl. lia.
  - destruct size; try lia. simpl. lia.
  - destruct size; try lia. simpl. lia.
Qed.

Lemma concat_chunks {A} (sz n : nat) : forall xs : list A,
  (List.length xs <= n * sz)%nat ->
  List.concat (map (fun i => firstn sz (skipn (i * sz) xs)) (seq 0 n)) = xs.
Proof.
  induction n as [|n IH]; intros xs Hlen.
  - destruct xs; [reflexivity | simpl in Hlen; lia].
  - cbn [seq map List.concat]. rewrite <- seq_shift, map_map.
    rewrite (map_ext _ (fun i => firstn sz (skipn (i * sz) (skipn sz xs)))).
    + rewrite IH.
      * simpl. apply firstn_skipn.
      * rewrite length_skipn. lia.
    + intros i. rewrite skipn_skipn. do 2 f_equal. lia.
Qed.

(** The pages 1 .. n, one after the other, are the rows, as soon as n
    pages of [size] rows cover them. *)
Lemma concat_pageSlices rows size (n : nat) :
  0 < size -> Z.of_nat (List.length rows) <= Z.of_nat n * size ->
  List.concat (map (fun c => pageSlice rows (Fin (Z.of_nat c)) (Fin size)) (seq 1 n)) = rows.
Proof.
  intros Hsize Hcover.
  rewrite <- seq_shift, map_map.
  rewrite (map_ext _ (fun i => firstn (Z.to_nat size) (skipn (i * Z.to_nat size) rows))).
  - apply concat_chunks. nia.
  - intros i. rewrite pageSlice_Fin by lia. do 2 f_equal. nia.
Qed.

Lemma pageCount_nat rows size :
  0 < size ->
  exists total : nat,
    pageCount rows (Fin size) = Fin (Z.of_nat total)
    /\ (Z.of_nat total - 1) * size < Z.of_nat (List.length rows) <= Z.of_nat total * size.
Proof.
  intros Hsize.
  pose proof (ceil_div_bounds (Z.of_nat (List.length rows)) size Hsize) as Hb.
  exists (Z.to_nat (- ((- Z.of_nat (List.length rows)) / size))).
  rewrite pageCount_Fin by lia.
  assert (0 <= - (- Z.of_nat (List.length rows) / size)) by nia.
  rewrite Z2Nat.id by assumption. split; [reflexivity | exact Hb].
Qed.

(** C6: for a positive page size, every page has at most pageSize rows; from
    page 1 on, paginatedData is the run of the filtered rows that starts at
    (currentPage - 1) * pageSize, pageSize rows long or as many as are left;
    and the pages 1 .. totalPages, concatenated in order, are exactly the
    filtered rows. *)
Theorem paginatedData_pages p st rows size :
  filteredData p st = Normal rows -> pageSize st = Fin size -> 0 < size ->
  (forall c, exists page,
      pageAt p st c = Normal page /\ Z.of_nat (List.length page) <= size)
  /\ (forall c, 1 <= c ->
      pageAt p st c
      = Normal (firstn (Z.to_nat size) (skipn (Z.to_nat ((c - 1) * size)) rows))
      /\ forall page, pageAt p st c = Normal page ->
           Z.of_nat (List.length page)
           = Z.max 0 (Z.min size (Z.of_nat (List.length rows) - (c - 1) * size)))
  /\ (exists (total : nat) (pages : list (list Row)),
      totalPages p st = Normal (Fin (Z.of_nat total))
      /\ map (fun c => pageAt p st (Z.of_nat c)) (seq 1 total) = map Normal pages
      /\ List.concat pages = rows).
Proof.
  intros Hrows Hps Hsize.
  assert (Hpage : forall c, pageAt p st c = Normal (pageSlice rows (Fin c) (Fin size))).
  { intros c. unfold pageAt, paginatedData.
    rewrite filteredData_setCurrentPage, Hrows. simpl. rewrite Hps. reflexivity. }
  split; [|split].
  - intros c. eexists. split; [apply Hpage|]. apply pageSlice_length, Hsize.
  - intros c Hc. rewrite Hpage, pageSlice_Fin by assumption.
    split; [reflexivity|].
    intros page [= <-]. rewrite length_firstn, length_skipn. nia.
  - destruct (pageCount_nat rows size Hsize) as (total & Htotal & Hlow & Hhigh).
    exists total, (map (fun c => pageSlice rows (Fin (Z.of_nat c)) (Fin size)) (seq 1 total)).
    split; [|split].
    + unfold totalPages. rewrite Hrows; simpl. rewrite Hps. f_equal. exact Htotal.
    + rewrite map_map. apply map_ext. intros c. apply Hpage.
    + apply concat_pageSlices; assumption.
Qed.

Lemma paginatedData_pages_witness :
  pageAt five_rows_table (initialState five_rows_table) 3 = Normal [named "e"].
Proof.
  destruct (paginatedData_pages five_rows_table (initialState five_rows_table)
              (data five_rows_table) 2 eq_refl eq_refl eq_refl)
    as (_ & Hslice & _).
  destruct (Hslice 3 ltac:(lia)) as [Hpage _].
  exact Hpage.
Defined.

(** ** The pagination buttons *)

Lemma totalPages_Normal p st total :
  totalPages p st = Normal total ->
  exists rows, filteredData p st = Normal rows /\ total = pageCount rows (pageSize st).
Proof.
  unfold totalPages. destruct (filteredData p st) as [rows|]; simpl; [|discriminate].
  intros [= <-]. exists rows. auto.
Qed.

(** Inside the range of a table that has pages, both buttons stay inside. *)
Lemma buttons_stay_in_range c total :
  1 <= c <= total ->
  (exists c', previousPage (Fin c) = Fin c' /\ 1 <= c' <= total)
  /\ (exists c', nextPage (Fin total) (Fin c) = Fin c' /\ 1 <= c' <= total).
Proof.
  intros Hc. rewrite previousPage_Fin, nextPage_Fin.
  split; eexists; (split; [reflexivity | lia]).
Qed.

(** C7: on a table without rows totalPages is 0, so on page 1 the Next
    button is not disabled, and its click takes currentPage to 0, below the
    floor of 1 and outside [1, totalPages]. *)
Theorem next_on_empty_table_reaches_page_zero :
  totalPages empty_table (initialState empty_table) = Normal (Fin 0)
  /\ nextDisabled (Fin 0) (initialState empty_table) = false
  /\ fire empty_table (initialState empty_table) NextClick
     = Normal (setCurrentPage (Fin 0) (initialState empty_table))
  /\ reachable empty_table (setCurrentPage (Fin 0) (initialState empty_table)).
Proof.
  repeat split.
  apply reach_event with (st := initialState empty_table) (ev := NextClick).
  - apply reach_mount.
  - exact I.
  - reflexivity.
Qed.

(** Five rows in pages of two: three pages, one row on the third, where
    the Next button is disabled and does nothing. *)
Example five_rows_last_page :
  totalPages five_rows_table (initialState five_rows_table) = Normal (Fin 3)
  /\ pageAt five_rows_table (initialState five_rows_table) 3 = Normal [named "e"]
  /\ nextDisabled (Fin 3) (setCurrentPage (Fin 3) (initialState five_rows_table)) = true
  /\ run five_rows_table (initialState five_rows_table)
       [NextClick; NextClick; NextClick; NextClick]
     = Normal (setCurrentPage (Fin 3) (initialState five_rows_table)).
Proof. repeat split. Qed.

(** ** The page invariant *)

Lemma filteredData_same_search p st1 st2 rows1 :
  searchTerm st1 = searchTerm st2 ->
  filteredData p st1 = Normal rows1 ->
  exists rows2, filteredData p st2 = Normal rows2 /\ Permutation rows1 rows2.
Proof.
  intros Hterm. unfold filteredData. rewrite <- Hterm.
  assert (Hperm : Permutation (sortedData p st1) (sortedData p st2)).
  { rewrite !sortedData_perm. reflexivity. }
  destruct (negb (filtering p) || String.eqb (searchTerm st1) EmptyString).
  - intros [= <-]. eexists. split; [reflexivity | exact Hperm].
  - intros Hrows.
    apply (Array_filter_Normal _ (someColumnMatches (columns p) (searchTerm st1)))
      in Hrows as [-> Hall]; [|intros row b; apply rowMatches_Normal].
    eexists. split.
    + apply Array_filter_total. intros row Hrow. apply Hall.
      apply Permutation_in with (l := sortedData p st2); [symmetry; exact Hperm | exact Hrow].
    + apply Permutation_filter, Hperm.
Qed.

Lemma pages_exist (rows : list Row) size :
  0 < size -> rows <> [] -> 1 <= - ((- Z.of_nat (List.length rows)) / size).
Proof.
  intros Hsize Hrows.
  pose proof (ceil_div_bounds (Z.of_nat (List.length rows)) size Hsize).
  assert (0 < Z.of_nat (List.length rows)) by (destruct rows; [congruence | simpl; lia]).
  nia.
Qed.

Lemma filteredData_same_length p st1 st2 rows1 rows2 :
  searchTerm st1 = searchTerm st2 ->
  filteredData p st1 = Normal rows1 -> filteredData p st2 = Normal rows2 ->
  List.length rows1 = List.length rows2 /\ (rows1 <> [] -> rows2 <> []).
Proof.
  intros Hterm H1 H2.
  destruct (filteredData_same_search p st1 st2 rows1 Hterm H1) as (rows & Hrows & Hperm).
  assert (rows = rows2) by congruence. subst rows.
  split; [apply Permutation_length, Hperm|].
  intros Hne ->. apply Permutation_sym, Permutation_nil in Hperm. contradiction.
Qed.

Ltac page_invariant c size :=
  exists c, size; split; [|split; [|split]];
  [try reflexivity; try assumption | try assumption | try assumption | intros rows Hrows Hne].

Lemma reachable_page_invariant p st :
  pagination_ok p -> reachable p st ->
  exists c size,
    currentPage st = Fin c /\ pageSize st = Fin size /\ 0 < size
    /\ forall rows, filteredData p st = Normal rows -> rows <> [] ->
         1 <= c <= - ((- Z.of_nat (List.length rows)) / size).
Proof.
  intros Hok Hreach.
  induction Hreach as [|st ev st' Hreach IH Hoffered Hfire].
  - destruct (initialPageSize_positive p Hok) as (size & Hsize & Hpos).
    page_invariant 1 size.
    pose proof (pages_exist rows size Hpos Hne). lia.
  - destruct IH as (c & size & Hc & Hps & Hpos & Hrange).
    unfold fire in Hfire.
    destruct (totalPages p st) as [total|] eqn:Htotal; simpl in Hfire; [|discriminate].
    apply totalPages_Normal in Htotal as (rows0 & Hrows0 & ->).
    rewrite Hps, (pageCount_Fin rows0 size) in Hfire by lia.
    injection Hfire as <-.
    destruct ev as [text | text | column | | ]; simpl in Hoffered.
    + destruct (filtering p); [|exists c, size; auto].
      page_invariant 1 size.
      pose proof (pages_exist rows size Hpos Hne). lia.
    + destruct (filtering p); [|exists c, size; auto].
      destruct (pageSizeOptions_positive text Hoffered) as (size' & Hsize' & Hpos').
      page_invariant 1 size'.
      pose proof (pages_exist rows size' Hpos' Hne). lia.
    + unfold headerClick.
      destruct (sorting p && sortable column); [|exists c, size; auto].
      page_invariant c size.
      destruct (filteredData_same_length p (handleSort (accessor column) st) st
                  rows rows0 eq_refl Hrows Hrows0)
        as [-> Hne0].
      apply Hrange; auto.
    + destruct (previousDisabled st); [exists c, size; auto|].
      rewrite Hc, previousPage_Fin.
      page_invariant (Z.max (c - 1) 1) size.
      rewrite filteredData_setCurrentPage in Hrows.
      specialize (Hrange rows Hrows Hne). lia.
    + destruct (nextDisabled _ st); [exists c, size; auto|].
      rewrite Hc, nextPage_Fin.
      page_invariant (Z.min (c + 1) (- (- Z.of_nat (List.length rows0) / size))) size.
      rewrite filteredData_setCurrentPage in Hrows.
      assert (rows = rows0) by congruence. subst rows0.
      specialize (Hrange rows Hrows Hne). lia.
Qed.

(** C1, as the code has it: with a configured page size that is a count of
    rows, in every state the handlers reach in which the filter returns,
    currentPage and pageSize are integers, pageSize is positive and
    totalPages is the ceiling of filteredCount / pageSize; it is 0 when no
    row is left, and whenever a row is left currentPage is within
    [1, totalPages]. *)
Theorem currentPage_within_totalPages p st rows :
  pagination_ok p -> reachable p st -> filteredData p st = Normal rows ->
  exists c size total,
    currentPage st = Fin c /\ pageSize st = Fin size /\ 0 < size
    /\ totalPages p st = Normal (Fin total)
    /\ (total - 1) * size < Z.of_nat (List.length rows) <= total * size
    /\ (rows = [] -> total = 0)
    /\ (rows <> [] -> 1 <= total /\ 1 <= c <= total).
Proof.
  intros Hok Hreach Hrows.
  destruct (reachable_page_invariant p st Hok Hreach)
    as (c & size & Hc & Hps & Hpos & Hrange).
  exists c, size, (- ((- Z.of_nat (List.length rows)) / size)).
  repeat match goal with |- _ /\ _ => split end; try assumption.
  - unfold totalPages. rewrite Hrows; simpl.
    rewrite Hps, pageCount_Fin by lia. reflexivity.
  - apply ceil_div_bounds, Hpos.
  - apply ceil_div_bounds, Hpos.
  - intros ->. reflexivity.
  - intros Hne. split; [apply pages_exist | apply Hrange]; assumption.
Qed.

Lemma currentPage_within_totalPages_witness :
  exists c size total,
    currentPage (setCurrentPage (Fin 3) (initialState five_rows_table)) = Fin c
    /\ pageSize (setCurrentPage (Fin 3) (initialState five_rows_table)) = Fin size
    /\ 0 < size
    /\ totalPages five_rows_table (setCurrentPage (Fin 3) (initialState five_rows_table))
       = Normal (Fin total)
    /\ (total - 1) * size < Z.of_nat (List.length (data five_rows_table)) <= total * size
    /\ (data five_rows_table = [] -> total = 0)
    /\ (data five_rows_table <> [] -> 1 <= total /\ 1 <= c <= total).
Proof.
  apply (currentPage_within_totalPages five_rows_table
           (setCurrentPage (Fin 3) (initialState five_rows_table))
           (data five_rows_table)).
  - unfold pagination_ok. simpl. lia.
  - apply reach_event
      with (st := setCurrentPage (Fin 2) (initialState five_rows_table)) (ev := NextClick);
      [|exact I|reflexivity].
    apply reach_event with (st := initialState five_rows_table) (ev := NextClick);
      [|exact I|reflexivity].
    apply reach_mount.
  - reflexivity.
Defined.

(** The table without rows, as mounted: totalPages is 0, and currentPage,
    1, is above it. *)
Lemma empty_table_has_no_page :
  reachable empty_table (initialState empty_table)
  /\ ~ (exists c total,
          currentPage (initialState empty_table) = Fin c
          /\ totalPages empty_table (initialState empty_table) = Normal (Fin total)
          /\ 1 <= total /\ 1 <= c <= total).
Proof.
  split; [apply reach_mount|].
  intros (c & total & _ & Htotal & Hone & _).
  vm_compute in Htotal. injection Htotal as <-. lia.
Qed.

(** ** The store *)

Lemma deref_spread_old h d r :
  (r < List.length h)%nat -> deref (fst (spread h d)) r = deref h r.
Proof. intros Hr. unfold spread, deref; simpl. apply app_nth1, Hr. Qed.

Lemma deref_spread_new h d : deref (fst (spread h d)) (snd (spread h d)) = deref h d.
Proof. unfold spread, deref; simpl. apply nth_middle. Qed.

Lemma deref_store_set_same h : forall r xs,
  (r < List.length h)%nat -> deref (store_set h r xs) r = xs.
Proof.
  unfold deref.
  induction h as [|a h IH]; intros [|r] xs Hr; simpl in *; try lia.
  - reflexivity.
  - apply IH. lia.
Qed.

Lemma deref_store_set_other h : forall r r0 xs,
  r0 <> r -> deref (store_set h r xs) r0 = deref h r0.
Proof.
  unfold deref.
  induction h as [|a h IH]; intros [|r] [|r0] xs Hneq; simpl; try reflexivity.
  - congruence.
  - apply IH. congruence.
Qed.

(** The sort stage on the store: the result is a new array that holds the
    sorted rows, and no array that existed before has changed. *)
Lemma sortedData_ref_fresh c h d :
  (d < List.length h)%nat ->
  let result := sortedData_ref true (Some c) h d in
  snd result <> d
  /\ deref (fst result) (snd result) = Array_sort (comparator c) (deref h d)
  /\ forall r, (r < List.length h)%nat -> deref (fst result) r = deref h r.
Proof.
  intros Hd. simpl.
  repeat split.
  - lia.
  - rewrite deref_store_set_same by (rewrite length_app; simpl; lia).
    f_equal. apply (deref_spread_new h d).
  - intros r Hr. rewrite deref_store_set_other by lia.
    apply (deref_spread_old h d r Hr).
Qed.

(** ** The sort stage *)

Lemma comparator_descending k a b :
  comparator {| key := k; direction := descending |} a b
  = - comparator {| key := k; direction := ascending |} a b.
Proof.
  unfold comparator; simpl.
  destruct (js_lt (get a k) (get b k)); [reflexivity|].
  destruct (js_gt (get a k) (get b k)); reflexivity.
Qed.

Lemma sortedData_sorting p st c :
  sorting p = true -> sortConfig st = Some c ->
  sortedData p st = Array_sort (comparator c) (data p).
Proof. intros Hs Hc. unfold sortedData. rewrite Hs, Hc. reflexivity. Qed.

Lemma has_value_ties c v a b :
  has_value (key c) v a = true -> has_value (key c) v b = true ->
  comparator c a b <= 0.
Proof.
  unfold has_value.
  destruct (value_eq_dec (get a (key c)) v) as [Ha|]; [|discriminate].
  destruct (value_eq_dec (get b (key c)) v) as [Hb|]; [|discriminate].
  intros _ _. rewrite comparator_same_value by congruence. lia.
Qed.

(** *** Columns with an order *)

Lemma String_ltb_false_trans a b c :
  String.ltb a b = false -> String.ltb b c = false -> String.ltb a c = false.
Proof.
  unfold String.ltb. intros Hab Hbc.
  destruct (String.compare a c) eqn:Hac; try reflexivity.
  exfalso.
  apply OrderedTypeEx.String_as_OT.cmp_lt in Hac.
  assert (Hba : a = b \/ OrderedTypeEx.String_as_OT.lt b a).
  { destruct (String.compare a b) eqn:H; [left | discriminate | right].
    - apply OrderedTypeEx.String_as_OT.cmp_eq, H.
    - apply OrderedTypeEx.String_as_OT.cmp_lt.
      unfold OrderedTypeEx.String_as_OT.cmp.
      rewrite String.compare_antisym, H. reflexivity. }
  assert (Hcb : b = c \/ OrderedTypeEx.String_as_OT.lt c b).
  { destruct (String.compare b c) eqn:H; [left | discriminate | right].
    - apply OrderedTypeEx.String_as_OT.cmp_eq, H.
    - apply OrderedTypeEx.String_as_OT.cmp_lt.
      unfold OrderedTypeEx.String_as_OT.cmp.
      rewrite String.compare_antisym, H. reflexivity. }
  assert (Hca : OrderedTypeEx.String_as_OT.lt c a \/ c = a).
  { destruct Hba as [-> | Hba], Hcb as [-> | Hcb]; auto.
    left. eapply OrderedTypeEx.String_as_OT.lt_trans; eassumption. }
  destruct Hca as [Hca | ->].
  - apply (OrderedTypeEx.String_as_OT.lt_not_eq a a); [|reflexivity].
    eapply OrderedTypeEx.String_as_OT.lt_trans; eassumption.
  - apply (OrderedTypeEx.String_as_OT.lt_not_eq a a); [exact Hac | reflexivity].
Qed.

Lemma num_ltb_false_trans a b c :
  a <> NaN -> b <> NaN -> c <> NaN ->
  num_ltb a b = false -> num_ltb b c = false -> num_ltb a c = false.
Proof.
  destruct a as [x| | |], b as [y| | |], c as [z| | |]; simpl;
    intros Ha Hb Hc Hab Hbc; try congruence.
  apply Z.ltb_ge in Hab, Hbc. apply Z.ltb_ge. lia.
Qed.

Lemma numeric_ToNumber v : numeric_value v -> ToNumber v <> NaN.
Proof. destruct v as [| |[]|n|s]; simpl; intros H; try discriminate; tauto. Qed.

Lemma numeric_js_lt a b :
  numeric_value a -> numeric_value b ->
  js_lt a b = num_ltb (ToNumber a) (ToNumber b).
Proof. destruct a, b; simpl; intros Ha Hb; try contradiction; reflexivity. Qed.

Lemma js_lt_false_trans_on k (rows : list Row) :
  comparable_column k rows ->
  forall x y z, In x rows -> In y rows -> In z rows ->
    js_lt (get x k) (get y k) = false -> js_lt (get y k) (get z k) = false ->
    js_lt (get x k) (get z k) = false.
Proof.
  intros [Hstr | Hnum] x y z Hx Hy Hz.
  - destruct (Hstr x Hx) as [sx ->], (Hstr y Hy) as [sy ->], (Hstr z Hz) as [sz ->].
    simpl. apply String_ltb_false_trans.
  - pose proof (Hnum x Hx) as Hnx. pose proof (Hnum y Hy) as Hny.
    pose proof (Hnum z Hz) as Hnz.
    rewrite !numeric_js_lt by assumption.
    apply num_ltb_false_trans; apply numeric_ToNumber; assumption.
Qed.

(** On such a column the order a sort configuration asks for is
    transitive, so that the comparator is consistent. *)
Lemma comparable_in_order_trans c (rows : list Row) :
  comparable_column (key c) rows ->
  forall x y z, In x rows -> In y rows -> In z rows ->
    in_order c x y -> in_order c y z -> in_order c x z.
Proof.
  intros Hcol x y z Hx Hy Hz. unfold in_order, js_gt.
  destruct (direction c).
  - intros Hxy Hyz.
    apply (js_lt_false_trans_on (key c) rows Hcol z y x); assumption.
  - apply (js_lt_false_trans_on (key c) rows Hcol x y z); assumption.
Qed.

Lemma comparable_not_after_trans c (rows : list Row) :
  comparable_column (key c) rows ->
  forall x y z, In x rows -> In y rows -> In z rows ->
    not_after (comparator c) x y -> not_after (comparator c) y z ->
    not_after (comparator c) x z.
Proof.
  intros Hcol x y z Hx Hy Hz Hxy Hyz.
  apply comparator_in_order. apply comparator_in_order in Hxy, Hyz.
  apply (comparable_in_order_trans c rows Hcol x y z); assumption.
Qed.

Lemma comparator_tie c a : comparator c a a <= 0.
Proof. rewrite comparator_same_value by reflexivity. lia. Qed.

Lemma StronglySorted_impl {A} (R S : A -> A -> Prop) xs :
  (forall a b, R a b -> S a b) -> StronglySorted R xs -> StronglySorted S xs.
Proof.
  intros HRS. induction 1 as [|x rest Hrest IH Hall]; constructor; auto.
  rewrite Forall_forall in Hall |- *. auto.
Qed.

(** On a column with an order the sort stage returns the one stable sort
    of data: whatever algorithm the engine runs returns this sequence. *)
Lemma sortedData_stable_sort p st c :
  sorting p = true -> sortConfig st = Some c ->
  comparable_column (key c) (data p) ->
  stable_sort_of (comparator c) (sortedData p st) (data p)
  /\ forall ys, stable_sort_of (comparator c) ys (data p) -> ys = sortedData p st.
Proof.
  intros Hs Hc Hcol.
  rewrite (sortedData_sorting p st c Hs Hc).
  pose proof (comparable_not_after_trans c (data p) Hcol) as Htrans.
  split.
  - split; [apply Array_sort_perm|]. split.
    + apply Array_sort_StronglySorted; [apply comparator_asym | exact Htrans].
    + intros a Ha. apply Array_sort_stable; assumption.
  - intros ys (Hperm & Hsorted & Hstable).
    apply stable_sort_unique; try assumption.
    + intros a _. apply comparator_tie.
    + apply comparator_asym.
Qed.

(** Where a row has no value at the key the comparator ties it with every
    row, and the result need not be ordered: the values 2, none, 1 form one
    run in which no neighbour is out of order, so that a sort that inserts
    element by element, or looks for runs first, leaves 2 before 1 in the
    ascending direction. *)
Lemma sortedData_unordered_with_missing_value :
  sortedData gappy_table (headerClick gappy_table valueColumn (initialState gappy_table))
  = [valued 2; []; valued 1]
  /\ ~ StronglySorted (in_order {| key := "v"; direction := ascending |})
        (sortedData gappy_table
           (headerClick gappy_table valueColumn (initialState gappy_table))).
Proof.
  split; [reflexivity|].
  intros Hsorted. apply StronglySorted_inv in Hsorted as [_ Hall].
  apply Forall_inv_tail, Forall_inv in Hall.
  vm_compute in Hall. discriminate.
Qed.

(** C4: with sorting enabled and a sort configuration set, the sort stage
    leaves the caller's data array, and every other array, as it was and
    returns a new array that holds the rows of data, descending being the
    negated ascending comparison.  On a column with an order (all strings,
    or all numeric values) the result is ordered throughout by the native
    comparison of the values at the key, in the direction asked for, rows
    with the same value keep their input order, and every stable sort
    returns this very sequence.  For the rows Bob, Amy, Cid one header
    click gives Amy, Bob, Cid and a second one Cid, Bob, Amy. *)
Theorem sortedData_sorts_a_copy p st c :
  sorting p = true -> sortConfig st = Some c ->
  (forall h d, (d < List.length h)%nat -> deref h d = data p ->
     let result := sortedData_ref (sorting p) (sortConfig st) h d in
     snd result <> d
     /\ Permutation (deref (fst result) (snd result)) (deref h d)
     /\ deref (fst result) (snd result) = sortedData p st
     /\ forall r, (r < List.length h)%nat -> deref (fst result) r = deref h r)
  /\ Permutation (sortedData p st) (data p)
  /\ (forall k a b,
        comparator {| key := k; direction := descending |} a b
        = - comparator {| key := k; direction := ascending |} a b)
  /\ (comparable_column (key c) (data p) ->
      StronglySorted (in_order c) (sortedData p st)
      /\ (forall v,
            filter (has_value (key c) v) (sortedData p st)
            = filter (has_value (key c) v) (data p))
      /\ (forall ys, stable_sort_of (comparator c) ys (data p) -> ys = sortedData p st))
  /\ sortedData names_table (headerClick names_table nameColumn (initialState names_table))
     = [named "Amy"; named "Bob"; named "Cid"]
  /\ sortedData names_table
       (headerClick names_table nameColumn
          (headerClick names_table nameColumn (initialState names_table)))
     = [named "Cid"; named "Bob"; named "Amy"].
Proof.
  intros Hs Hc.
  pose proof (sortedData_sorting p st c Hs Hc) as Hsorted.
  repeat match goal with |- _ /\ _ => split end.
  - intros h d Hd Hdata. rewrite Hs, Hc, Hsorted, <- Hdata.
    destruct (sortedData_ref_fresh c h d Hd) as (Hfresh & Hresult & Hold).
    repeat split; try assumption.
    rewrite Hresult. apply Array_sort_perm.
  - apply sortedData_perm.
  - apply comparator_descending.
  - intros Hcol.
    destruct (sortedData_stable_sort p st c Hs Hc Hcol) as ((_ & Hss & _) & Hunique).
    repeat split.
    + apply StronglySorted_impl with (R := not_after (comparator c)); [|exact Hss].
      intros a b. apply comparator_in_order.
    + intros v. rewrite Hsorted. apply filter_Array_sort.
      intros a b _ _. apply has_value_ties.
    + exact Hunique.
  - reflexivity.
  - reflexivity.
Qed.

Lemma names_column_comparable : comparable_column "name" (data names_table).
Proof.
  left. intros row Hrow. simpl in Hrow.
  destruct Hrow as [<- | [<- | [<- | []]]]; eexists; reflexivity.
Qed.

Lemma sortedData_sorts_a_copy_witness :
  StronglySorted (in_order {| key := "name"; direction := ascending |})
    (sortedData names_table (handleSort "name" (initialState names_table))).
Proof.
  destruct (sortedData_sorts_a_copy names_table
              (handleSort "name" (initialState names_table))
              {| key := "name"; direction := ascending |} eq_refl eq_refl)
    as (_ & _ & _ & Hordered & _).
  destruct (Hordered names_column_comparable) as [Hwhole _].
  exact Hwhole.
Defined.



(** * Further properties of the pipeline and the handlers *)

(** ** The filter stage *)

Lemma toLowerCase_app s : forall t,
  toLowerCase (s ++ t) = (toLowerCase s ++ toLowerCase t)%string.
Proof.
  induction s as [|c s IH]; intros t; simpl.
  - reflexivity.
  - rewrite IH. reflexivity.
Qed.

Lemma toLowerCase_empty s : toLowerCase s = EmptyString <-> s = EmptyString.
Proof. destruct s; simpl; split; congruence. Qed.

Lemma includes_trans s t u :
  includes s t = true -> includes t u = true -> includes s u = true.
Proof.
  rewrite !includes_spec.
  intros (pre & post & ->) (pre' & post' & ->).
  exists (pre ++ pre')%string, (post' ++ post)%string.
  clear. induction pre as [|c pre IH]; simpl.
  - induction pre' as [|c pre' IH']; simpl.
    + induction u as [|c u IHu]; simpl; [reflexivity | rewrite IHu; reflexivity].
    + rewrite IH'. reflexivity.
  - rewrite IH. reflexivity.
Qed.

Lemma Array_some_ext {A} (f g : A -> completion bool) xs :
  (forall x, f x = g x) -> Array_some f xs = Array_some g xs.
Proof.
  intros Hfg. induction xs as [|x rest IH]; simpl.
  - reflexivity.
  - rewrite Hfg, IH. reflexivity.
Qed.

Lemma Array_filter_ext {A} (f g : A -> completion bool) xs :
  (forall x, f x = g x) -> Array_filter f xs = Array_filter g xs.
Proof.
  intros Hfg. induction xs as [|x rest IH]; simpl.
  - reflexivity.
  - rewrite Hfg, IH. reflexivity.
Qed.

Lemma filter_filter_implied {A} (f g : A -> bool) xs :
  (forall x, f x = true -> g x = true) -> filter f (filter g xs) = filter f xs.
Proof.
  intros Hfg. induction xs as [|x rest IH]; simpl.
  - reflexivity.
  - destruct (g x) eqn:Hg; simpl.
    + rewrite IH. reflexivity.
    + destruct (f x) eqn:Hf; [|exact IH].
      rewrite (Hfg x Hf) in Hg. discriminate.
Qed.

Lemma filter_length_bound {A} (g : A -> bool) xs :
  (List.length (filter g xs) <= List.length xs)%nat.
Proof.
  induction xs as [|x rest IH]; simpl; [lia|].
  destruct (g x); simpl; lia.
Qed.

Lemma filteredData_active p st :
  filtering p = true -> searchTerm st <> EmptyString ->
  filteredData p st
  = Array_filter (rowMatches (columns p) (searchTerm st)) (sortedData p st).
Proof.
  intros Hf Hterm. unfold filteredData. rewrite Hf.
  apply String.eqb_neq in Hterm. rewrite Hterm. reflexivity.
Qed.

Lemma filteredData_inactive p st :
  filtering p = false \/ searchTerm st = EmptyString ->
  filteredData p st = Normal (sortedData p st).
Proof.
  intros [Hf | Hterm]; unfold filteredData.
  - rewrite Hf. reflexivity.
  - rewrite Hterm. rewrite orb_true_r. reflexivity.
Qed.

Lemma filteredData_filter p st rows :
  filteredData p st = Normal rows ->
  exists g, rows = filter g (sortedData p st).
Proof.
  unfold filteredData.
  destruct (negb (filtering p) || String.eqb (searchTerm st) EmptyString).
  - intros [= <-]. exists (fun _ => true). symmetry. apply filter_true.
  - intros Hrows. exists (someColumnMatches (columns p) (searchTerm st)).
    eapply Array_filter_Normal in Hrows; [apply Hrows|].
    intros row b. apply rowMatches_Normal.
Qed.

(** X1: the filter only ever drops rows: its result is a selection, in
    order, of the sorted rows, never longer than data, and every row of it
    is a row of data. *)
Theorem filteredData_selects_rows p st rows :
  filteredData p st = Normal rows ->
  (exists g, rows = filter g (sortedData p st))
  /\ (List.length rows <= List.length (data p))%nat
  /\ (forall row, In row rows -> In row (data p)).
Proof.
  intros Hrows.
  destruct (filteredData_filter p st rows Hrows) as [g ->].
  pose proof (sortedData_perm p st) as Hperm.
  split; [exists g; reflexivity|]. split.
  - rewrite <- (Permutation_length Hperm). apply filter_length_bound.
  - intros row Hrow. apply filter_In in Hrow as [Hrow _].
    eapply Permutation_in; eassumption.
Qed.

Lemma filteredData_selects_rows_witness :
  (List.length [named "Amy"] <= List.length (data search_table))%nat.
Proof.
  destruct (filteredData_selects_rows search_table
              (handleSearch "a" (initialState search_table)) [named "Amy"] eq_refl)
    as (_ & Hlen & _).
  exact Hlen.
Defined.

(** X2: the search is insensitive to the case of the term: two terms with
    the same lowercase form give the same filteredData, exception
    included. *)
Theorem filteredData_term_case p st t1 t2 :
  toLowerCase t1 = toLowerCase t2 ->
  filteredData p (setSearchTerm t1 st) = filteredData p (setSearchTerm t2 st).
Proof.
  intros Hlower. unfold filteredData. simpl.
  assert (Hempty : String.eqb t1 EmptyString = String.eqb t2 EmptyString).
  { destruct (String.eqb_spec t1 EmptyString) as [-> | H1].
    - symmetry in Hlower. apply (proj1 (toLowerCase_empty t2)) in Hlower.
      subst. reflexivity.
    - destruct (String.eqb_spec t2 EmptyString) as [-> | H2]; [|reflexivity].
      apply (proj1 (toLowerCase_empty t1)) in Hlower. contradiction. }
  rewrite Hempty.
  destruct (negb (filtering p) || String.eqb t2 EmptyString); [reflexivity|].
  apply Array_filter_ext. intros row. unfold rowMatches.
  apply Array_some_ext. intros column. unfold cellMatches.
  rewrite Hlower. reflexivity.
Qed.

Lemma filteredData_term_case_witness :
  filteredData search_table
    (setSearchTerm (String "201" "COLE") (initialState search_table))
  = filteredData search_table
      (setSearchTerm (String "233" "cole") (initialState search_table)).
Proof.
  apply (filteredData_term_case search_table (initialState search_table)
           (String "201" "COLE") (String "233" "cole")).
  reflexivity.
Defined.

Lemma someColumnMatches_narrows cols t1 t2 pre post row :
  t2 = (pre ++ t1 ++ post)%string ->
  someColumnMatches cols t2 row = true -> someColumnMatches cols t1 row = true.
Proof.
  intros ->. unfold someColumnMatches. rewrite !existsb_exists.
  intros (column & Hin & Hmatch). exists column. split; [exact Hin|].
  destruct (toString (get row (accessor column))) as [text|]; [|discriminate].
  eapply includes_trans; [exact Hmatch|].
  apply includes_spec. exists (toLowerCase pre), (toLowerCase post).
  rewrite !toLowerCase_app. reflexivity.
Qed.

(** X3: a longer search term narrows the result: when the term t1 occurs
    inside the non-empty term t2 and the filter returns for both, the rows
    kept for t2 are the rows kept for t1 that match t2, in the same
    order. *)
Theorem filteredData_narrows p st t1 t2 pre post rows1 rows2 :
  filtering p = true ->
  t2 = (pre ++ t1 ++ post)%string -> t2 <> EmptyString ->
  filteredData p (setSearchTerm t1 st) = Normal rows1 ->
  filteredData p (setSearchTerm t2 st) = Normal rows2 ->
  rows2 = filter (someColumnMatches (columns p) t2) rows1
  /\ (List.length rows2 <= List.length rows1)%nat.
Proof.
  intros Hf Ht2 Hne H1 H2.
  assert (Hsorted : sortedData p (setSearchTerm t1 st) = sortedData p (setSearchTerm t2 st))
    by reflexivity.
  assert (Hrows2 : rows2 = filter (someColumnMatches (columns p) t2)
                             (sortedData p (setSearchTerm t2 st))).
  { rewrite filteredData_active in H2 by assumption.
    eapply Array_filter_Normal in H2; [apply H2|].
    intros row b. apply rowMatches_Normal. }
  assert (Heq : rows2 = filter (someColumnMatches (columns p) t2) rows1).
  { destruct (String.eqb_spec t1 EmptyString) as [-> | Hne1].
    - rewrite filteredData_inactive in H1 by (right; reflexivity).
      injection H1 as <-. rewrite Hsorted. exact Hrows2.
    - rewrite filteredData_active in H1 by assumption.
      eapply Array_filter_Normal in H1 as [-> _];
        [|intros row b; apply rowMatches_Normal].
      simpl searchTerm. rewrite Hsorted, filter_filter_implied; [exact Hrows2|].
      intros row. apply (someColumnMatches_narrows _ t1 t2 pre post row Ht2). }
  split; [exact Heq|]. rewrite Heq. apply filter_length_bound.
Qed.

Lemma filteredData_narrows_witness :
  [person "Bob" "Oslo"; person "Cid" "Oslo"]
  = filter (someColumnMatches (columns people_table) "os")
      [person "Bob" "Oslo"; person "amy" "Rome"; person "Cid" "Oslo"]
  /\ (List.length [person "Bob" "Oslo"; person "Cid" "Oslo"]
      <= List.length [person "Bob" "Oslo"; person "amy" "Rome"; person "Cid" "Oslo"])%nat.
Proof.
  apply (filteredData_narrows people_table (initialState people_table)
           "o" "os" "" "s"
           [person "Bob" "Oslo"; person "amy" "Rome"; person "Cid" "Oslo"]
           [person "Bob" "Oslo"; person "Cid" "Oslo"]);
    try reflexivity.
  discriminate.
Defined.

Lemma rowMatches_throws_iff term row cols :
  rowMatches cols term row = Throw TypeError <->
  exists before column after,
    cols = before ++ column :: after
    /\ toString (get row (accessor column)) = Throw TypeError
    /\ someColumnMatches before term row = false.
Proof.
  unfold rowMatches.
  induction cols as [|c rest IH]; simpl.
  - split; [discriminate|].
    intros (before & column & after & Heq & _). destruct before; discriminate.
  - unfold cellMatches at 1.
    destruct (toString (get row (accessor c))) as [text|[]] eqn:Htext; simpl.
    + destruct (includes (toLowerCase text) (toLowerCase term)) eqn:Hinc; simpl.
      * split; [discriminate|].
        intros (before & column & after & Heq & Hthrow & Hnone).
        destruct before as [|b before]; simpl in Heq; injection Heq as <- Hrest.
        -- congruence.
        -- simpl in Hnone. rewrite Htext, Hinc in Hnone. discriminate.
      * rewrite IH. split.
        -- intros (before & column & after & -> & Hthrow & Hnone).
           exists (c :: before), column, after. repeat split; try assumption.
           simpl. rewrite Htext, Hinc. exact Hnone.
        -- intros (before & column & after & Heq & Hthrow & Hnone).
           destruct before as [|b before]; simpl in Heq; injection Heq as <- Hrest.
           ++ congruence.
           ++ exists before, column, after. repeat split; try assumption.
              simpl in Hnone. rewrite Htext, Hinc in Hnone. exact Hnone.
    + split; [intros _|reflexivity].
      exists [], c, rest. repeat split. exact Htext.
Qed.

Lemma Array_filter_throws_iff {A} (f : A -> completion bool) xs :
  Array_filter f xs = Throw TypeError <-> exists x, In x xs /\ f x = Throw TypeError.
Proof.
  split.
  - induction xs as [|x rest IH]; simpl; [discriminate|].
    destruct (f x) as [b|[]] eqn:Hfx; simpl.
    + destruct (Array_filter f rest) as [kept|[]]; simpl; [discriminate|].
      intros _. destruct (IH eq_refl) as (y & Hy & Hthrow). exists y. auto.
    + intros _. exists x. auto.
  - intros (x & Hin & Hthrow). eapply Array_filter_throws; eassumption.
Qed.

(** X4: filteredData throws exactly when the filter is active (filtering
    on, search term not empty) and some row of data has a column without
    text (the value is undefined or null) that no matching column
    precedes; the order of the rows plays no part. *)
Theorem filteredData_throws_iff p st :
  filteredData p st = Throw TypeError <->
  filtering p = true /\ searchTerm st <> EmptyString
  /\ exists row before column after,
       In row (data p)
       /\ columns p = before ++ column :: after
       /\ toString (get row (accessor column)) = Throw TypeError
       /\ someColumnMatches before (searchTerm st) row = false.
Proof.
  pose proof (sortedData_perm p st) as Hperm.
  split.
  - intros Hthrow.
    destruct (filtering p) eqn:Hf;
      [|rewrite filteredData_inactive in Hthrow by (left; exact Hf); discriminate].
    destruct (String.eqb_spec (searchTerm st) EmptyString) as [Hterm | Hterm];
      [rewrite filteredData_inactive in Hthrow by (right; exact Hterm); discriminate|].
    rewrite filteredData_active in Hthrow by assumption.
    apply Array_filter_throws_iff in Hthrow as (row & Hrow & Hthrow).
    apply rowMatches_throws_iff in Hthrow as (before & column & after & Hcols & Hmiss & Hnone).
    repeat split; try assumption.
    exists row, before, column, after. repeat split; try assumption.
    eapply Permutation_in; eassumption.
  - intros (Hf & Hterm & row & before & column & after & Hrow & Hcols & Hmiss & Hnone).
    rewrite filteredData_active by assumption.
    apply Array_filter_throws_iff. exists row. split.
    + eapply Permutation_in; [symmetry; exact Hperm | exact Hrow].
    + apply rowMatches_throws_iff. exists before, column, after. auto.
Qed.

(** ** Sorting and the pages *)

Lemma totalPages_ignores_sort p st cfg :
  totalPages p (setSortConfig cfg st) = totalPages p st.
Proof.
  unfold totalPages.
  destruct (filteredData p st) as [rows|[]] eqn:Hst.
  - destruct (filteredData_same_search p st (setSortConfig cfg st) rows eq_refl Hst)
      as (rows' & -> & Hperm).
    simpl. unfold pageCount. rewrite (Permutation_length Hperm). reflexivity.
  - destruct (filteredData p (setSortConfig cfg st)) as [rows'|[]] eqn:Hst'; [|reflexivity].
    destruct (filteredData_same_search p (setSortConfig cfg st) st rows' eq_refl Hst')
      as (rows & Hrows & _).
    congruence.
Qed.

(** X5: a header click touches the sort configuration only: currentPage,
    pageSize and the search term stay, the filtered rows stay the same up
    to their order, and totalPages, exception included, is what it was. *)
Theorem headerClick_keeps_pages p column st :
  currentPage (headerClick p column st) = currentPage st
  /\ pageSize (headerClick p column st) = pageSize st
  /\ searchTerm (headerClick p column st) = searchTerm st
  /\ totalPages p (headerClick p column st) = totalPages p st
  /\ forall rows, filteredData p st = Normal rows ->
       exists rows', filteredData p (headerClick p column st) = Normal rows'
                     /\ Permutation rows rows'.
Proof.
  unfold headerClick.
  destruct (sorting p && sortable column).
  - repeat match goal with |- _ /\ _ => split end; try reflexivity.
    + unfold handleSort. apply (totalPages_ignores_sort p st).
    + intros rows Hrows.
      apply (filteredData_same_search p st (handleSort (accessor column) st)
               rows eq_refl Hrows).
  - repeat match goal with |- _ /\ _ => split end; try reflexivity.
    intros rows Hrows. exists rows. split; [exact Hrows | reflexivity].
Qed.

(** ** What the handlers can reach *)

Lemma fire_Normal p st ev st' :
  fire p st ev = Normal st' ->
  exists total,
    totalPages p st = Normal total
    /\ st' = match ev with
             | SearchInput text => if filtering p then handleSearch text st else st
             | PageSizeSelect text =>
                 if filtering p then handlePageSizeChange text st else st
             | HeaderClick column => headerClick p column st
             | PreviousClick =>
                 if previousDisabled st then st
                 else setCurrentPage (previousPage (currentPage st)) st
             | NextClick =>
                 if nextDisabled total st then st
                 else setCurrentPage (nextPage total (currentPage st)) st
             end.
Proof.
  unfold fire. destruct (totalPages p st) as [total|]; simpl; [|discriminate].
  intros [= <-]. exists total. auto.
Qed.

(** X6: the sort configuration of a reachable state is unset, or sorting is
    enabled and its key is the accessor of a sortable column of the table;
    so with sorting disabled, or without a sortable column, the rows are
    always shown in the order of data. *)
Theorem reachable_sortConfig p st :
  reachable p st ->
  (forall c, sortConfig st = Some c ->
     sorting p = true
     /\ exists column,
          In column (columns p) /\ sortable column = true /\ accessor column = key c)
  /\ (sorting p = false \/ (forall column, In column (columns p) -> sortable column = false) ->
      sortConfig st = None /\ sortedData p st = data p).
Proof.
  intros Hreach.
  assert (Hkey : forall c, sortConfig st = Some c ->
            sorting p = true
            /\ exists column,
                 In column (columns p) /\ sortable column = true /\ accessor column = key c).
  { induction Hreach as [|st ev st' Hreach IH Hoffered Hfire].
    - discriminate.
    - apply fire_Normal in Hfire as (total & _ & ->).
      destruct ev as [text | text | column | | ]; simpl in Hoffered.
      + destruct (filtering p); exact IH.
      + destruct (filtering p); exact IH.
      + unfold headerClick.
        destruct (sorting p) eqn:Hs, (sortable column) eqn:Hc; simpl; try exact IH.
        intros c [= <-]. split; [reflexivity|]. exists column. auto.
      + destruct (previousDisabled st); exact IH.
      + destruct (nextDisabled total st); exact IH. }
  split; [exact Hkey|].
  intros Hoff.
  assert (Hnone : sortConfig st = None).
  { destruct (sortConfig st) as [c|] eqn:Hc; [|reflexivity].
    destruct (Hkey c eq_refl) as (Hs & column & Hin & Hsortable & _).
    destruct Hoff as [Hoff | Hoff]; [congruence|].
    rewrite (Hoff column Hin) in Hsortable. discriminate. }
  split; [exact Hnone|].
  unfold sortedData. rewrite Hnone. destruct (negb (sorting p)); reflexivity.
Qed.

Lemma reachable_sortConfig_witness :
  sorting render_only_table = true
  /\ exists column,
       In column (columns render_only_table)
       /\ sortable column = true
       /\ accessor column = "actions"%string.
Proof.
  assert (Hreach : reachable render_only_table
            (headerClick render_only_table actionsColumn
               (headerClick render_only_table nameColumn
                  (initialState render_only_table)))).
  { apply reach_event
      with (st := headerClick render_only_table nameColumn
                    (initialState render_only_table))
           (ev := HeaderClick actionsColumn).
    - apply reach_event
        with (st := initialState render_only_table) (ev := HeaderClick nameColumn).
      + apply reach_mount.
      + simpl. auto.
      + reflexivity.
    - simpl. auto.
    - reflexivity. }
  destruct (reachable_sortConfig render_only_table _ Hreach) as [Hkey _].
  apply (Hkey {| key := "actions"; direction := ascending |}).
  reflexivity.
Defined.

Lemma run_reachable p evs : forall st st',
  reachable p st -> Forall (offered p) evs -> run p st evs = Normal st' ->
  reachable p st'.
Proof.
  induction evs as [|ev evs IH]; simpl; intros st st' Hreach Hoffered Hrun.
  - injection Hrun as <-. exact Hreach.
  - destruct (fire p st ev) as [st1|] eqn:Hfire; simpl in Hrun; [|discriminate].
    inversion Hoffered as [|? ? Hev Hevs]; subst.
    apply (IH st1 st'); [|exact Hevs|exact Hrun].
    eapply reach_event; eassumption.
Qed.

(** X7: with filtering disabled nothing can throw: every sequence of events
    runs to a state, in which the search term and the page size are those
    of the state it started from and filteredData is the sorted data,
    whatever fields the rows have. *)
Theorem filtering_disabled_never_throws p evs : forall st,
  filtering p = false ->
  exists st',
    run p st evs = Normal st'
    /\ searchTerm st' = searchTerm st
    /\ pageSize st' = pageSize st
    /\ filteredData p st' = Normal (sortedData p st').
Proof.
  induction evs as [|ev evs IH]; intros st Hf; simpl.
  - exists st. repeat split. apply filteredData_inactive. left. exact Hf.
  - assert (Hfire : exists st1, fire p st ev = Normal st1
                                /\ searchTerm st1 = searchTerm st
                                /\ pageSize st1 = pageSize st).
    { unfold fire, totalPages.
      rewrite filteredData_inactive by (left; exact Hf). simpl.
      eexists. split; [reflexivity|].
      destruct ev as [text | text | column | | ]; rewrite ?Hf.
      - auto.
      - auto.
      - unfold headerClick. destruct (sorting p && sortable column); auto.
      - destruct (previousDisabled st); auto.
      - destruct (nextDisabled _ st); auto. }
    destruct Hfire as (st1 & -> & Hterm & Hsize). simpl.
    destruct (IH st1 Hf) as (st' & Hrun & Hterm' & Hsize' & Hfd).
    exists st'. repeat split; try assumption; congruence.
Qed.

Lemma filtering_disabled_never_throws_witness :
  exists st',
    run names_table (initialState names_table)
      [SearchInput "x"; HeaderClick nameColumn; NextClick] = Normal st'
    /\ searchTerm st' = searchTerm (initialState names_table)
    /\ pageSize st' = pageSize (initialState names_table)
    /\ filteredData names_table st' = Normal (sortedData names_table st').
Proof.
  apply (filtering_disabled_never_throws names_table
           [SearchInput "x"; HeaderClick nameColumn; NextClick]
           (initialState names_table)).
  reflexivity.
Defined.

(** X8: the page size of a reachable state is the initial one or the
    number of one of the four options of the select, 5, 10, 25 or 50. *)
Theorem reachable_pageSize p st :
  reachable p st ->
  pageSize st = initialPageSize (pagination p)
  \/ In (pageSize st) [Fin 5; Fin 10; Fin 25; Fin 50].
Proof.
  induction 1 as [|st ev st' Hreach IH Hoffered Hfire].
  - left. reflexivity.
  - apply fire_Normal in Hfire as (total & _ & ->).
    destruct ev as [text | text | column | | ]; simpl in Hoffered.
    + destruct (filtering p); exact IH.
    + destruct (filtering p); [|exact IH].
      right. simpl pageSize.
      destruct Hoffered as [<- | [<- | [<- | [<- | []]]]]; simpl; auto.
    + unfold headerClick. destruct (sorting p && sortable column); exact IH.
    + destruct (previousDisabled st); exact IH.
    + destruct (nextDisabled total st); exact IH.
Qed.

Lemma reachable_pageSize_witness :
  pageSize (handlePageSizeChange "25" (initialState search_table))
    = initialPageSize (pagination search_table)
  \/ In (pageSize (handlePageSizeChange "25" (initialState search_table)))
        [Fin 5; Fin 10; Fin 25; Fin 50].
Proof.
  apply (reachable_pageSize search_table).
  apply reach_event with (st := initialState search_table) (ev := PageSizeSelect "25").
  - apply reach_mount.
  - simpl. auto.
  - reflexivity.
Defined.

(** ** The current page *)

Ltac page_bounds c size :=
  exists c, size; split; [|split; [|split]];
  [try reflexivity; try assumption | try assumption | try assumption | intros rows Hrows].

Lemma reachable_page_bounds p st :
  pagination_ok p -> reachable p st ->
  exists c size,
    currentPage st = Fin c /\ pageSize st = Fin size /\ 0 < size
    /\ forall rows, filteredData p st = Normal rows ->
         0 <= c <= Z.max 1 (- ((- Z.of_nat (List.length rows)) / size))
         /\ (c = 0 -> rows = []).
Proof.
  intros Hok Hreach.
  assert (Hceil : forall (rows : list Row) size, 0 < size ->
            0 <= - ((- Z.of_nat (List.length rows)) / size)).
  { intros rows size Hsize.
    pose proof (ceil_div_bounds (Z.of_nat (List.length rows)) size Hsize). nia. }
  induction Hreach as [|st ev st' Hreach IH Hoffered Hfire].
  - destruct (initialPageSize_positive p Hok) as (size & Hsize & Hpos).
    page_bounds 1 size. split; lia.
  - destruct IH as (c & size & Hc & Hps & Hpos & Hrange).
    apply fire_Normal in Hfire as (total & Htotal & ->).
    apply totalPages_Normal in Htotal as (rows0 & Hrows0 & ->).
    rewrite Hps, (pageCount_Fin rows0 size) by lia.
    destruct (Hrange rows0 Hrows0) as [Hc0 Hzero0].
    destruct ev as [text | text | column | | ]; simpl in Hoffered.
    + destruct (filtering p); [|exists c, size; auto].
      page_bounds 1 size. split; lia.
    + destruct (filtering p); [|exists c, size; auto].
      destruct (pageSizeOptions_positive text Hoffered) as (size' & Hsize' & Hpos').
      page_bounds 1 size'. split; lia.
    + unfold headerClick.
      destruct (sorting p && sortable column); [|exists c, size; auto].
      page_bounds c size.
      destruct (filteredData_same_search p (handleSort (accessor column) st) st
                  rows eq_refl Hrows) as (rows' & Hrows' & Hperm).
      assert (rows' = rows0) by congruence. subst rows'.
      rewrite (Permutation_length Hperm). split; [exact Hc0|].
      intros Hz. rewrite (Hzero0 Hz) in Hperm.
      apply Permutation_sym, Permutation_nil in Hperm. exact Hperm.
    + destruct (previousDisabled st); [exists c, size; auto|].
      rewrite Hc, previousPage_Fin.
      page_bounds (Z.max (c - 1) 1) size.
      rewrite filteredData_setCurrentPage in Hrows.
      assert (rows = rows0) by congruence. subst rows0. split; lia.
    + destruct (nextDisabled _ st) eqn:Hdis; [exists c, size; auto|].
      rewrite Hc, nextPage_Fin.
      page_bounds (Z.min (c + 1) (- (- Z.of_nat (List.length rows0) / size))) size.
      rewrite filteredData_setCurrentPage in Hrows.
      assert (rows = rows0) by congruence. subst rows0.
      pose proof (Hceil rows size Hpos).
      split; [lia|].
      intros Hz. destruct rows as [|row rows]; [reflexivity|].
      pose proof (pages_exist (row :: rows) size Hpos ltac:(discriminate)). lia.
Qed.

(** X9: with a configured page size that is a count of rows, in every
    reachable state in which the filter returns currentPage is an integer
    between 0 and the larger of 1 and totalPages, and it is 0 only while no
    row is left to show. *)
Theorem currentPage_bounds p st rows :
  pagination_ok p -> reachable p st -> filteredData p st = Normal rows ->
  exists c total,
    currentPage st = Fin c /\ totalPages p st = Normal (Fin total)
    /\ 0 <= c <= Z.max 1 total
    /\ (c = 0 -> rows = []).
Proof.
  intros Hok Hreach Hrows.
  destruct (reachable_page_bounds p st Hok Hreach)
    as (c & size & Hc & Hps & Hpos & Hrange).
  exists c, (- ((- Z.of_nat (List.length rows)) / size)).
  split; [exact Hc|]. split.
  - unfold totalPages. rewrite Hrows; simpl.
    rewrite Hps, pageCount_Fin by lia. reflexivity.
  - apply Hrange, Hrows.
Qed.

Lemma currentPage_bounds_witness :
  exists c total,
    currentPage (setCurrentPage (Fin 0) (initialState empty_table)) = Fin c
    /\ totalPages empty_table (setCurrentPage (Fin 0) (initialState empty_table))
       = Normal (Fin total)
    /\ 0 <= c <= Z.max 1 total
    /\ (c = 0 -> @nil Row = []).
Proof.
  apply (currentPage_bounds empty_table
           (setCurrentPage (Fin 0) (initialState empty_table)) []).
  - exact I.
  - apply reach_event with (st := initialState empty_table) (ev := NextClick);
      [apply reach_mount | exact I | reflexivity].
  - reflexivity.
Defined.

(** X10: while at least one row passes the filter, the page shown in a
    reachable state is never empty. *)
Theorem paginatedData_nonempty p st rows :
  pagination_ok p -> reachable p st ->
  filteredData p st = Normal rows -> rows <> [] ->
  exists page, paginatedData p st = Normal page /\ page <> [].
Proof.
  intros Hok Hreach Hrows Hne.
  destruct (reachable_page_invariant p st Hok Hreach)
    as (c & size & Hc & Hps & Hpos & Hrange).
  specialize (Hrange rows Hrows Hne).
  pose proof (ceil_div_bounds (Z.of_nat (List.length rows)) size Hpos) as Hceil.
  unfold paginatedData. rewrite Hrows; simpl. rewrite Hc, Hps.
  eexists. split; [reflexivity|].
  rewrite pageSlice_Fin by lia.
  intros Hnil. apply (f_equal (@List.length Row)) in Hnil.
  rewrite length_firstn, length_skipn in Hnil. simpl in Hnil. nia.
Qed.

Lemma paginatedData_nonempty_witness :
  exists page,
    paginatedData five_rows_table (setCurrentPage (Fin 2) (initialState five_rows_table))
    = Normal page /\ page <> [].
Proof.
  apply (paginatedData_nonempty five_rows_table
           (setCurrentPage (Fin 2) (initialState five_rows_table))
           (data five_rows_table)).
  - unfold pagination_ok. simpl. lia.
  - apply reach_event with (st := initialState five_rows_table) (ev := NextClick);
      [apply reach_mount | exact I | reflexivity].
  - reflexivity.
  - discriminate.
Defined.

(** X11: for a positive page size, every page before the last holds exactly
    pageSize rows, the last page holds the remaining rows, at least one and
    at most pageSize, and every page after the last is empty. *)
Theorem pageAt_sizes p st rows size total :
  filteredData p st = Normal rows -> pageSize st = Fin size -> 0 < size ->
  totalPages p st = Normal (Fin total) ->
  (forall c, 1 <= c < total ->
     exists page, pageAt p st c = Normal page /\ Z.of_nat (List.length page) = size)
  /\ (1 <= total ->
      exists page,
        pageAt p st total = Normal page
        /\ Z.of_nat (List.length page) = Z.of_nat (List.length rows) - (total - 1) * size
        /\ 1 <= Z.of_nat (List.length page) <= size)
  /\ (forall c, total < c -> pageAt p st c = Normal []).
Proof.
  intros Hrows Hps Hpos Htotal.
  assert (Htot : total = - ((- Z.of_nat (List.length rows)) / size)).
  { unfold totalPages in Htotal. rewrite Hrows in Htotal; simpl in Htotal.
    rewrite Hps, pageCount_Fin in Htotal by lia. congruence. }
  pose proof (ceil_div_bounds (Z.of_nat (List.length rows)) size Hpos) as Hceil.
  rewrite <- Htot in Hceil.
  assert (Hpage : forall c, 1 <= c ->
            pageAt p st c
            = Normal (firstn (Z.to_nat size) (skipn (Z.to_nat ((c - 1) * size)) rows))).
  { intros c Hc. unfold pageAt, paginatedData.
    rewrite filteredData_setCurrentPage, Hrows. simpl. rewrite Hps.
    rewrite pageSlice_Fin by assumption. reflexivity. }
  split; [|split].
  - intros c Hc. eexists. split; [apply Hpage; lia|].
    rewrite length_firstn, length_skipn. nia.
  - intros Hone. eexists. split; [apply Hpage; lia|].
    rewrite length_firstn, length_skipn. nia.
  - intros c Hc.
    assert (0 <= total).
    { destruct (Z.le_gt_cases 0 total) as [Hle | Hlt]; [exact Hle | nia]. }
    rewrite Hpage by lia.
    rewrite skipn_all2 by nia. rewrite firstn_nil. reflexivity.
Qed.

Lemma pageAt_sizes_witness :
  (forall c, 1 <= c < 3 ->
     exists page,
       pageAt five_rows_table (initialState five_rows_table) c = Normal page
       /\ Z.of_nat (List.length page) = 2)
  /\ (1 <= 3 ->
      exists page,
        pageAt five_rows_table (initialState five_rows_table) 3 = Normal page
        /\ Z.of_nat (List.length page)
           = Z.of_nat (List.length (data five_rows_table)) - (3 - 1) * 2
        /\ 1 <= Z.of_nat (List.length page) <= 2)
  /\ (forall c, 3 < c ->
      pageAt five_rows_table (initialState five_rows_table) c = Normal []).
Proof.
  apply (pageAt_sizes five_rows_table (initialState five_rows_table)
           (data five_rows_table) 2 3); try reflexivity.
Defined.

(** X12: in every state, whatever the numbers in currentPage and pageSize,
    the page shown is one unbroken run of the filtered rows: it never holds
    a row the filter dropped, never repeats or reorders rows. *)
Theorem paginatedData_is_a_run p st rows :
  filteredData p st = Normal rows ->
  exists before page after,
    paginatedData p st = Normal page
    /\ rows = before ++ page ++ after
    /\ forall row, In row page -> In row (data p).
Proof.
  intros Hrows. unfold paginatedData. rewrite Hrows; simpl.
  unfold pageSlice, Array_slice.
  set (k := Z.to_nat (relative_index _ (num_mul _ _))).
  set (n := Z.to_nat (Z.max _ 0)).
  exists (firstn k rows), (firstn n (skipn k rows)), (skipn n (skipn k rows)).
  split; [reflexivity|]. split.
  - rewrite firstn_skipn, firstn_skipn. reflexivity.
  - intros row Hrow.
    assert (Hin : In row rows).
    { rewrite <- (firstn_skipn k rows). apply in_or_app. right.
      rewrite <- (firstn_skipn n (skipn k rows)). apply in_or_app. left. exact Hrow. }
    destruct (filteredData_filter p st rows Hrows) as [g ->].
    apply filter_In in Hin as [Hin _].
    apply Permutation_in with (l := sortedData p st); [apply sortedData_perm | exact Hin].
Qed.

Lemma paginatedData_is_a_run_witness :
  exists before page after,
    paginatedData five_rows_table
      (setPageSize NaN (setCurrentPage (Fin (-1)) (initialState five_rows_table)))
    = Normal page
    /\ data five_rows_table = before ++ page ++ after
    /\ forall row, In row page -> In row (data five_rows_table).
Proof.
  apply (paginatedData_is_a_run five_rows_table
           (setPageSize NaN (setCurrentPage (Fin (-1)) (initialState five_rows_table)))
           (data five_rows_table)).
  reflexivity.
Defined.

Lemma setCurrentPage_same st : setCurrentPage (currentPage st) st = st.
Proof. destruct st; reflexivity. Qed.

(** X13: between the first and the last page the two buttons undo each
    other: Next and then Previous, on a page before the last, and Previous
    and then Next, on a page after the first, lead back to the same
    state. *)
Theorem next_previous_round_trip p st c total :
  currentPage st = Fin c -> totalPages p st = Normal (Fin total) ->
  (1 <= c < total -> run p st [NextClick; PreviousClick] = Normal st)
  /\ (1 < c <= total -> run p st [PreviousClick; NextClick] = Normal st).
Proof.
  intros Hc Htotal.
  assert (Hsame : forall n, totalPages p (setCurrentPage n st) = Normal (Fin total))
    by (intros n; exact Htotal).
  split; intros Hrange; simpl; unfold fire.
  - rewrite Htotal; simpl. unfold nextDisabled, previousDisabled.
    rewrite Hc, nextPage_Fin; simpl.
    destruct (Z.eqb_spec c total); [lia|]. simpl.
    rewrite Hsame; simpl. rewrite previousPage_Fin.
    destruct (Z.eqb_spec (Z.min (c + 1) total) 1); [lia|].
    replace (Z.max (Z.min (c + 1) total - 1) 1) with c by lia.
    rewrite <- Hc. f_equal. destruct st; reflexivity.
  - rewrite Htotal; simpl. unfold nextDisabled, previousDisabled.
    rewrite Hc, previousPage_Fin; simpl.
    destruct (Z.eqb_spec c 1); [lia|]. simpl.
    rewrite Hsame; simpl. rewrite nextPage_Fin.
    destruct (Z.eqb_spec (Z.max (c - 1) 1) total); [lia|].
    replace (Z.min (Z.max (c - 1) 1 + 1) total) with c by lia.
    rewrite <- Hc. f_equal. destruct st; reflexivity.
Qed.

Lemma next_previous_round_trip_witness :
  run five_rows_table (setCurrentPage (Fin 2) (initialState five_rows_table))
    [NextClick; PreviousClick]
  = Normal (setCurrentPage (Fin 2) (initialState five_rows_table)).
Proof.
  destruct (next_previous_round_trip five_rows_table
              (setCurrentPage (Fin 2) (initialState five_rows_table)) 2 3
              eq_refl eq_refl) as [Hnp _].
  apply Hnp. lia.
Defined.

(** ** Sorting and filtering together *)

Lemma filter_comm {A} (f g : A -> bool) xs :
  filter f (filter g xs) = filter g (filter f xs).
Proof.
  induction xs as [|x rest IH]; simpl; [reflexivity|].
  destruct (f x) eqn:Hf, (g x) eqn:Hg; simpl; rewrite ?Hf, ?Hg, IH; reflexivity.
Qed.

Lemma StronglySorted_filter {A} (R : A -> A -> Prop) (g : A -> bool) xs :
  StronglySorted R xs -> StronglySorted R (filter g xs).
Proof.
  induction 1 as [|x rest Hrest IH Hall]; simpl; [constructor|].
  destruct (g x); [|exact IH].
  constructor; [exact IH|].
  rewrite Forall_forall in Hall |- *.
  intros y Hy. apply Hall. apply filter_In in Hy. tauto.
Qed.

(** For a comparator that is consistent on the array, dropping elements
    before the sort or after it comes to the same. *)
Lemma filter_Array_sort_commute {A} (comparefn : A -> A -> Z) (g : A -> bool) xs :
  (forall a, In a xs -> comparefn a a <= 0) ->
  (forall a b, 0 < comparefn a b -> comparefn b a <= 0) ->
  (forall a b c, In a xs -> In b xs -> In c xs ->
     not_after comparefn a b -> not_after comparefn b c -> not_after comparefn a c) ->
  filter g (Array_sort comparefn xs) = Array_sort comparefn (filter g xs).
Proof.
  intros Hrefl Hasym Htrans.
  assert (Hsub : forall a, In a (filter g xs) -> In a xs)
    by (intros a Ha; apply filter_In in Ha; tauto).
  apply stable_sort_unique.
  - intros a Ha. apply Hrefl, Hsub, Ha.
  - exact Hasym.
  - intros a b c Ha Hb Hc. apply Htrans; apply Hsub; assumption.
  - apply Permutation_filter, Array_sort_perm.
  - apply StronglySorted_filter, Array_sort_StronglySorted; assumption.
  - intros a Ha. rewrite filter_comm.
    rewrite (Array_sort_stable comparefn xs Htrans a (Hsub a Ha)).
    apply filter_comm.
Qed.

Lemma comparator_refl c a : comparator c a a <= 0.
Proof. rewrite comparator_same_value by reflexivity. lia. Qed.

Lemma in_order_trans_not_after c (rows : list Row) :
  (forall x y z, In x rows -> In y rows -> In z rows ->
     in_order c x y -> in_order c y z -> in_order c x z) ->
  forall x y z, In x rows -> In y rows -> In z rows ->
    not_after (comparator c) x y -> not_after (comparator c) y z ->
    not_after (comparator c) x z.
Proof.
  intros Htrans x y z Hx Hy Hz Hxy Hyz.
  apply comparator_in_order. apply comparator_in_order in Hxy, Hyz.
  apply (Htrans x y z); assumption.
Qed.

(** X14: when the order of the sort is transitive on the rows of data, the
    order of the two stages does not matter: the filtered rows are what the
    sort stage returns on the matching rows of data alone. *)
Theorem filteredData_sorts_the_matches p st c rows :
  sorting p = true -> sortConfig st = Some c ->
  filtering p = true -> searchTerm st <> EmptyString ->
  (forall x y z, In x (data p) -> In y (data p) -> In z (data p) ->
     in_order c x y -> in_order c y z -> in_order c x z) ->
  filteredData p st = Normal rows ->
  rows = sortedData
           (with_data (filter (someColumnMatches (columns p) (searchTerm st)) (data p)) p)
           st.
Proof.
  intros Hs Hc Hf Hterm Htrans Hrows.
  rewrite filteredData_active in Hrows by assumption.
  eapply Array_filter_Normal in Hrows as [-> _];
    [|intros row b; apply rowMatches_Normal].
  rewrite (sortedData_sorting p st c Hs Hc).
  rewrite (sortedData_sorting (with_data _ p) st c Hs Hc). simpl data.
  apply filter_Array_sort_commute.
  - intros a _. apply comparator_refl.
  - apply comparator_asym.
  - apply in_order_trans_not_after, Htrans.
Qed.

Lemma filteredData_sorts_the_matches_witness :
  [person "Bob" "Oslo"; person "Cid" "Oslo"]
  = sortedData
      (with_data (filter (someColumnMatches (columns people_table) "os")
                    (data people_table)) people_table)
      (handleSearch "os" (handleSort "name" (initialState people_table))).
Proof.
  apply (filteredData_sorts_the_matches people_table
           (handleSearch "os" (handleSort "name" (initialState people_table)))
           {| key := "name"; direction := ascending |});
    [reflexivity | reflexivity | reflexivity | discriminate | | reflexivity].
  intros x y z Hx Hy Hz. simpl in Hx, Hy, Hz.
  destruct Hx as [<- | [<- | [<- | []]]];
    destruct Hy as [<- | [<- | [<- | []]]];
    destruct Hz as [<- | [<- | [<- | []]]];
    vm_compute; congruence.
Defined.

(** ** The two directions *)

Lemma comparator_antisym c a b : comparator c b a = - comparator c a b.
Proof.
  unfold comparator, js_gt.
  destruct (js_lt (get a (key c)) (get b (key c))) eqn:Hab.
  - rewrite (js_lt_asym _ _ Hab). destruct (direction c); reflexivity.
  - destruct (js_lt (get b (key c)) (get a (key c))); destruct (direction c); reflexivity.
Qed.

Lemma comparator_zero c a b :
  comparator c a b = 0 <->
  js_lt (get a (key c)) (get b (key c)) = false
  /\ js_lt (get b (key c)) (get a (key c)) = false.
Proof.
  unfold comparator, js_gt.
  destruct (js_lt (get a (key c)) (get b (key c)));
    destruct (js_lt (get b (key c)) (get a (key c)));
    destruct (direction c); split; intros H; try lia; try tauto;
    destruct H; discriminate.
Qed.

Lemma StronglySorted_snoc {A} (R : A -> A -> Prop) xs x :
  StronglySorted R xs -> Forall (fun y => R y x) xs -> StronglySorted R (xs ++ [x]).
Proof.
  induction 1 as [|y rest Hrest IH Hall]; simpl; intros Hx.
  - repeat constructor.
  - inversion Hx as [|? ? Hyx Hrestx]; subst.
    constructor; [apply IH, Hrestx|].
    apply Forall_app. split; [exact Hall | repeat constructor; exact Hyx].
Qed.

Lemma StronglySorted_rev {A} (R S : A -> A -> Prop) xs :
  (forall a b, R a b -> S b a) -> StronglySorted R xs -> StronglySorted S (rev xs).
Proof.
  intros HRS. induction 1 as [|x rest Hrest IH Hall]; simpl.
  - constructor.
  - apply StronglySorted_snoc; [exact IH|].
    apply Forall_rev. rewrite Forall_forall in Hall |- *.
    intros y Hy. apply HRS, Hall, Hy.
Qed.

Lemma all_same_repeat {A} (a : A) xs :
  (forall x, In x xs -> x = a) -> xs = repeat a (List.length xs).
Proof.
  induction xs as [|x rest IH]; simpl; intros Hall; [reflexivity|].
  rewrite <- IH by (intros y Hy; apply Hall; right; exact Hy).
  rewrite (Hall x (or_introl eq_refl)). reflexivity.
Qed.

Lemma Permutation_all_same {A} (a : A) xs ys :
  Permutation xs ys -> (forall x, In x xs -> x = a) -> xs = ys.
Proof.
  intros Hperm Hall.
  rewrite (all_same_repeat a xs Hall).
  rewrite (all_same_repeat a ys).
  - rewrite (Permutation_length Hperm). reflexivity.
  - intros y Hy. apply Hall. eapply Permutation_in; [symmetry|]; eassumption.
Qed.

(** X15: when the ascending order is transitive on the rows of data and
    only identical rows tie at the key, the descending sort shows the rows
    of the ascending sort in exactly the reverse order. *)
Theorem descending_reverses_ascending p st k :
  sorting p = true ->
  (forall x y z, In x (data p) -> In y (data p) -> In z (data p) ->
     in_order {| key := k; direction := ascending |} x y ->
     in_order {| key := k; direction := ascending |} y z ->
     in_order {| key := k; direction := ascending |} x z) ->
  (forall x y, In x (data p) -> In y (data p) ->
     js_lt (get x k) (get y k) = false -> js_lt (get y k) (get x k) = false -> x = y) ->
  sortedData p (setSortConfig (Some {| key := k; direction := descending |}) st)
  = rev (sortedData p (setSortConfig (Some {| key := k; direction := ascending |}) st)).
Proof.
  intros Hs Htrans Hties.
  set (asc := {| key := k; direction := ascending |}) in *.
  set (desc := {| key := k; direction := descending |}).
  rewrite (sortedData_sorting p (setSortConfig (Some desc) st) desc Hs eq_refl).
  rewrite (sortedData_sorting p (setSortConfig (Some asc) st) asc Hs eq_refl).
  assert (Hflip : forall a b, not_after (comparator desc) a b <-> not_after (comparator asc) b a).
  { intros a b. unfold not_after, desc, asc.
    rewrite comparator_descending, (comparator_antisym _ a b). lia. }
  pose proof (in_order_trans_not_after asc (data p) Htrans) as Hasc.
  pose proof (Array_sort_perm (comparator asc) (data p)) as Hperm.
  symmetry. apply stable_sort_unique.
  - intros a _. apply comparator_refl.
  - apply comparator_asym.
  - intros a b c Ha Hb Hc Hab Hbc. apply Hflip. apply Hflip in Hab, Hbc.
    apply (Hasc c b a); assumption.
  - rewrite <- Permutation_rev. exact Hperm.
  - apply StronglySorted_rev with (R := not_after (comparator asc)).
    + intros a b. apply Hflip.
    + apply Array_sort_StronglySorted; [apply comparator_asym | exact Hasc].
  - intros a Ha.
    apply Permutation_all_same with (a := a).
    + apply Permutation_filter. rewrite <- Permutation_rev. exact Hperm.
    + intros x Hx. apply filter_In in Hx as [Hx Htied].
      apply in_rev in Hx.
      assert (Hxin : In x (data p)) by (eapply Permutation_in; eassumption).
      unfold tied in Htied. apply andb_prop in Htied as [H1 H2].
      apply Z.leb_le in H1, H2.
      rewrite (comparator_antisym desc a x) in H2.
      assert (H0 : comparator desc a x = 0) by lia.
      apply comparator_zero in H0 as [Hax Hxa]. simpl in Hax, Hxa.
      apply Hties; assumption.
Qed.

Lemma descending_reverses_ascending_witness :
  sortedData names_table
    (setSortConfig (Some {| key := "name"; direction := descending |})
       (initialState names_table))
  = rev (sortedData names_table
           (setSortConfig (Some {| key := "name"; direction := ascending |})
              (initialState names_table))).
Proof.
  apply (descending_reverses_ascending names_table (initialState names_table) "name").
  - reflexivity.
  - intros x y z Hx Hy Hz. simpl in Hx, Hy, Hz.
    destruct Hx as [<- | [<- | [<- | []]]];
      destruct Hy as [<- | [<- | [<- | []]]];
      destruct Hz as [<- | [<- | [<- | []]]];
      vm_compute; congruence.
  - intros x y Hx Hy. simpl in Hx, Hy.
    destruct Hx as [<- | [<- | [<- | []]]];
      destruct Hy as [<- | [<- | [<- | []]]];
      vm_compute; intros; first [reflexivity | discriminate].
Defined.

(** ** Sorting on a column without a field *)

Lemma Sorted_of_all {A} (R : A -> A -> Prop) xs :
  (forall a b, In a xs -> In b xs -> R a b) -> Sorted R xs.
Proof.
  induction xs as [|x rest IH]; intros Hall; constructor.
  - apply IH. intros a b Ha Hb. apply Hall; right; assumption.
  - destruct rest as [|y rest]; constructor.
    apply Hall; simpl; auto.
Qed.

(** X16: sorting on a key that no row of data has, as for a column that is
    only drawn by its render function, leaves the rows in the order of
    data, in either direction. *)
Theorem sortedData_missing_field p st c :
  sortConfig st = Some c ->
  (forall row, In row (data p) -> get row (key c) = VUndefined) ->
  sortedData p st = data p.
Proof.
  intros Hc Hmissing. unfold sortedData. rewrite Hc.
  destruct (negb (sorting p)); [reflexivity|].
  apply Array_sort_fixed, Sorted_of_all.
  intros a b Ha Hb. unfold not_after, comparator, js_gt.
  rewrite (Hmissing a Ha), (Hmissing b Hb). simpl. lia.
Qed.

Lemma sortedData_missing_field_witness :
  sortedData render_only_table
    (headerClick render_only_table actionsColumn
       (headerClick render_only_table actionsColumn (initialState render_only_table)))
  = data render_only_table.
Proof.
  apply (sortedData_missing_field render_only_table
           (headerClick render_only_table actionsColumn
              (headerClick render_only_table actionsColumn
                 (initialState render_only_table)))
           {| key := "actions"; direction := descending |}).
  - reflexivity.
  - intros row Hrow. simpl in Hrow.
    destruct Hrow as [<- | [<- | [<- | []]]]; reflexivity.
Defined.

(** ** The sort indicators *)

Lemma sortedData_ordered p st c :
  sorting p = true -> sortConfig st = Some c ->
  comparable_column (key c) (data p) ->
  StronglySorted (in_order c) (sortedData p st).
Proof.
  intros Hs Hc Hcol.
  destruct (sortedData_stable_sort p st c Hs Hc Hcol) as ((_ & Hss & _) & _).
  apply StronglySorted_impl with (R := not_after (comparator c)); [|exact Hss].
  intros a b. apply comparator_in_order.
Qed.

Lemma sortIndicator_arrow p st column d :
  sortIndicator p st column
  = Some (match d with ascending => ArrowUp | descending => ArrowDown end) ->
  sorting p = true
  /\ sortConfig st = Some {| key := accessor column; direction := d |}.
Proof.
  unfold sortIndicator.
  destruct (sorting p); simpl; [|discriminate].
  destruct (sortable column); [|discriminate].
  destruct (sortConfig st) as [[k d']|]; simpl.
  - destruct (String.eqb_spec k (accessor column)) as [-> | Hneq].
    + destruct d', d; simpl; intros [= ]; auto.
    + destruct d; discriminate.
  - destruct d; discriminate.
Qed.

(** X17: the indicators tell the truth about the rows: over a column with
    an order (all strings, or all numeric values), a header that shows the
    up arrow stands over rows in ascending order of that column, one that
    shows the down arrow over rows in descending order; a click on a
    sortable header, with sorting enabled, makes it show one of the two
    arrows, and every sortable header with another accessor the two-way
    arrow; no indicator is drawn exactly when sorting is disabled or the
    column is not sortable. *)
Theorem sortIndicator_tells_order p st column :
  (sortIndicator p st column = Some ArrowUp ->
     comparable_column (accessor column) (data p) ->
     StronglySorted (in_order {| key := accessor column; direction := ascending |})
       (sortedData p st))
  /\ (sortIndicator p st column = Some ArrowDown ->
     comparable_column (accessor column) (data p) ->
     StronglySorted (in_order {| key := accessor column; direction := descending |})
       (sortedData p st))
  /\ (sorting p = true -> sortable column = true ->
     (sortIndicator p (headerClick p column st) column = Some ArrowUp
      \/ sortIndicator p (headerClick p column st) column = Some ArrowDown)
     /\ forall other,
          sortable other = true -> accessor other <> accessor column ->
          sortIndicator p (headerClick p column st) other = Some ArrowUpDown)
  /\ (sortIndicator p st column = None <-> sorting p && sortable column = false).
Proof.
  repeat match goal with |- _ /\ _ => split end.
  - intros Hup Hcol.
    destruct (sortIndicator_arrow p st column ascending Hup) as [Hs Hc].
    apply sortedData_ordered; assumption.
  - intros Hdown Hcol.
    destruct (sortIndicator_arrow p st column descending Hdown) as [Hs Hc].
    apply sortedData_ordered; assumption.
  - intros Hs Hsortable. unfold headerClick, sortIndicator.
    rewrite Hs, Hsortable. simpl. rewrite String.eqb_refl. split.
    + destruct (sortConfig st) as [c|]; [|left; reflexivity].
      destruct (String.eqb (key c) (accessor column) && Direction_eqb (direction c) ascending);
        simpl; auto.
    + intros other Hother Hneq. rewrite Hother.
      apply not_eq_sym, String.eqb_neq in Hneq. rewrite Hneq. reflexivity.
  - unfold sortIndicator. destruct (sorting p && sortable column); split; congruence.
Qed.

Lemma sortIndicator_tells_order_witness :
  StronglySorted (in_order {| key := accessor nameColumn; direction := descending |})
    (sortedData names_table
       (headerClick names_table nameColumn
          (headerClick names_table nameColumn (initialState names_table)))).
Proof.
  destruct (sortIndicator_tells_order names_table
              (headerClick names_table nameColumn
                 (headerClick names_table nameColumn (initialState names_table)))
              nameColumn)
    as (_ & Hdown & _).
  apply Hdown; [reflexivity | exact names_column_comparable].
Defined.

(** ** After a search or a page-size change *)

Lemma pageSlice_first (rows : list Row) size :
  0 < size -> pageSlice rows (Fin 1) (Fin size) = firstn (Z.to_nat size) rows.
Proof. intros Hsize. rewrite pageSlice_Fin by lia. reflexivity. Qed.

(** X18: right after a search input or a page-size selection the table
    shows the head of the filtered rows: the first pageSize of them, or all
    of them when they are fewer. *)
Theorem handlers_show_first_rows p st text rows size :
  0 < size ->
  (pageSize st = Fin size ->
   filteredData p (handleSearch text st) = Normal rows ->
   paginatedData p (handleSearch text st) = Normal (firstn (Z.to_nat size) rows))
  /\ (StringToNumber text = Fin size ->
      filteredData p (handlePageSizeChange text st) = Normal rows ->
      paginatedData p (handlePageSizeChange text st)
      = Normal (firstn (Z.to_nat size) rows)).
Proof.
  intros Hsize. split; intros Hps Hrows; unfold paginatedData; rewrite Hrows; simpl.
  - rewrite Hps, pageSlice_first by assumption. reflexivity.
  - rewrite Hps, pageSlice_first by assumption. reflexivity.
Qed.

Lemma handlers_show_first_rows_witness :
  paginatedData five_rows_table (handlePageSizeChange "5" (initialState five_rows_table))
  = Normal (firstn (Z.to_nat 5) (data five_rows_table)).
Proof.
  destruct (handlers_show_first_rows five_rows_table (initialState five_rows_table)
              "5" (data five_rows_table) 5 ltac:(lia)) as [_ Hsize].
  apply Hsize; reflexivity.
Defined.

(** X19: a larger page size never means more pages, and there is exactly
    one page when there are rows and they all fit in the page size. *)
Theorem totalPages_shrinks_with_pageSize p st rows s1 s2 :
  filteredData p st = Normal rows -> 0 < s1 <= s2 ->
  exists t1 t2,
    totalPages p (setPageSize (Fin s1) st) = Normal (Fin t1)
    /\ totalPages p (setPageSize (Fin s2) st) = Normal (Fin t2)
    /\ 0 <= t2 <= t1
    /\ (t2 = 1 <-> rows <> [] /\ Z.of_nat (List.length rows) <= s2).
Proof.
  intros Hrows Hs.
  assert (Hfd : forall n, filteredData p (setPageSize n st) = Normal rows)
    by (intros n; exact Hrows).
  pose proof (ceil_div_bounds (Z.of_nat (List.length rows)) s1 ltac:(lia)) as H1.
  pose proof (ceil_div_bounds (Z.of_nat (List.length rows)) s2 ltac:(lia)) as H2.
  exists (- ((- Z.of_nat (List.length rows)) / s1)),
         (- ((- Z.of_nat (List.length rows)) / s2)).
  unfold totalPages. rewrite !Hfd. simpl. rewrite !pageCount_Fin by lia.
  set (t1 := - ((- Z.of_nat (List.length rows)) / s1)) in *.
  set (t2 := - ((- Z.of_nat (List.length rows)) / s2)) in *.
  assert (Hlen : 0 <= Z.of_nat (List.length rows)) by lia.
  assert (Ht1 : 0 <= t1) by (destruct (Z.le_gt_cases 0 t1); [assumption | nia]).
  assert (Ht2 : 0 <= t2) by (destruct (Z.le_gt_cases 0 t2); [assumption | nia]).
  repeat match goal with |- _ /\ _ => split end; try reflexivity;
    clearbody t1 t2.
  - exact Ht2.
  - destruct (Z.le_gt_cases t2 t1) as [Hle | Hgt]; [exact Hle|].
    assert (t1 * s1 <= (t2 - 1) * s2) by nia. lia.
  - split.
    + intros Hone. rewrite Hone in H2. split; [|lia].
      intros ->. simpl in H2. lia.
    + intros [Hne Hfit].
      assert (0 < Z.of_nat (List.length rows))
        by (destruct rows; [congruence | simpl; lia]).
      assert (0 < t2) by nia.
      destruct (Z.le_gt_cases t2 1) as [Hle | Hgt]; [lia|].
      assert (s2 <= (t2 - 1) * s2) by nia. lia.
Qed.

Lemma totalPages_shrinks_with_pageSize_witness :
  exists t1 t2,
    totalPages five_rows_table (setPageSize (Fin 2) (initialState five_rows_table))
    = Normal (Fin t1)
    /\ totalPages five_rows_table (setPageSize (Fin 5) (initialState five_rows_table))
       = Normal (Fin t2)
    /\ 0 <= t2 <= t1
    /\ (t2 = 1 <-> data five_rows_table <> []
                   /\ Z.of_nat (List.length (data five_rows_table)) <= 5).
Proof.
  apply (totalPages_shrinks_with_pageSize five_rows_table (initialState five_rows_table)
           (data five_rows_table) 2 5).
  - reflexivity.
  - lia.
Defined.

(** ** A page size that is no count *)

(** X20: nothing guards the page size against a value that is no positive
    number: with a page size of NaN or 0, which the page-size handler
    stores for a value that is no number or is empty, no row is shown on
    any page; totalPages is NaN for NaN, and for 0 it is Infinity when rows
    are left and NaN when none is, and with such a totalPages the Next
    button is not disabled at any finite page. *)
Theorem degenerate_pageSize p st rows :
  filteredData p st = Normal rows ->
  (pageSize st = NaN ->
     paginatedData p st = Normal [] /\ totalPages p st = Normal NaN)
  /\ (pageSize st = Fin 0 ->
     paginatedData p st = Normal []
     /\ totalPages p st = Normal (if Nat.eqb (List.length rows) 0 then NaN else PosInf))
  /\ (forall total c,
        totalPages p st = Normal total -> total = NaN \/ total = PosInf ->
        currentPage st = Fin c -> nextDisabled total st = false).
Proof.
  intros Hrows.
  repeat match goal with |- _ /\ _ => split end.
  - intros Hps. unfold totalPages, paginatedData. rewrite Hrows; simpl. rewrite Hps.
    split; [|reflexivity].
    unfold pageSlice, Array_slice.
    destruct (num_sub (currentPage st) (Fin 1)); simpl; reflexivity.
  - intros Hps. unfold totalPages, paginatedData. rewrite Hrows; simpl. rewrite Hps.
    split.
    + unfold pageSlice, Array_slice.
      destruct (num_sub (currentPage st) (Fin 1)) as [z| | |]; simpl;
        try reflexivity.
      replace (z * 0) with 0 by lia. replace (z * 0 + 0) with 0 by lia.
      simpl. rewrite Z.sub_diag. reflexivity.
    + unfold pageCount, Math_ceil_div. simpl.
      destruct rows; reflexivity.
  - intros total c _ [-> | ->] Hc; unfold nextDisabled; rewrite Hc; reflexivity.
Qed.

Lemma degenerate_pageSize_witness :
  paginatedData five_rows_table
    (handlePageSizeChange "" (initialState five_rows_table)) = Normal []
  /\ totalPages five_rows_table
       (handlePageSizeChange "" (initialState five_rows_table)) = Normal PosInf.
Proof.
  destruct (degenerate_pageSize five_rows_table
              (handlePageSizeChange "" (initialState five_rows_table))
              (data five_rows_table) eq_refl) as (_ & Hzero & _).
  apply Hzero. reflexivity.
Defined.
